(** * Note watcher: the structured-extraction pipeline of [watcher.backup.py]

    A shallow embedding of the JSON recovery helpers ([strip_code_fences],
    [extract_balanced_block], [extract_first_json]) and of [process_text]
    (model client, repair loop, record materializer), with the properties
    of the written specification stated against it.

    Python strings are sequences of Unicode code points: a character is its
    code point (an [N]) and a string is a list of them.  The collaborators
    of [process_text] that live outside the repository (the HTTP backend,
    [json.loads], the MongoDB collection, the clock) are the variables of
    a section; everything the repository itself computes is a definition. *)

From Stdlib Require Import String Ascii.
From stdpp Require Import base numbers list option gmap.

Local Open Scope N_scope.

(** ** Python strings *)

Abbreviation char := N (only parsing).
Abbreviation str := (list N) (only parsing).

(** A literal: the code points of an ASCII string constant. *)
Definition lit (s : string) : str := N_of_ascii <$> list_ascii_of_string s.

Definition NL : char := 10.         (* the line feed *)
Definition DQUOTE : char := 34.     (* the double quote *)
Definition SQUOTE : char := 39.     (* ' *)
Definition BACKSLASH : char := 92.  (* \ *)
Definition BACKTICK : char := 96.   (* ` *)
Definition LBRACKET : char := 91.   (* [ *)
Definition RBRACKET : char := 93.   (* ] *)
Definition LBRACE : char := 123.    (* { *)
Definition RBRACE : char := 125.    (* } *)

(** A literal in which every double quote is written as an apostrophe, so
    that JSON text reads as JSON: [jlit "{'a': 1}"] is the text with two
    double quotes. *)
Definition jlit (s : string) : str :=
  (λ c, if c =? SQUOTE then DQUOTE else c) <$> lit s.

(** [str.isspace] on one character; the same predicate decides [\s] in a
    [str] pattern and what [str.strip] removes. *)
Definition isspace (c : char) : bool :=
  ((9 <=? c) && (c <=? 13)) || ((28 <=? c) && (c <=? 32))
  || (c =? 133) || (c =? 160) || (c =? 5760)
  || ((8192 <=? c) && (c <=? 8202))
  || (c =? 8232) || (c =? 8233) || (c =? 8239) || (c =? 8287) || (c =? 12288).

(** [text.lstrip()], [text.rstrip()], [text.strip()]. *)
Fixpoint lstrip (text : str) : str :=
  match text with
  | c :: rest => if isspace c then lstrip rest else text
  | [] => []
  end.

Definition rstrip (text : str) : str := reverse (lstrip (reverse text)).

Definition strip (text : str) : str := rstrip (lstrip text).

(** [text.startswith(sub)]. *)
Fixpoint startswith (sub text : str) : bool :=
  match sub, text with
  | [], _ => true
  | _ :: _, [] => false
  | a :: sub', b :: text' => (a =? b) && startswith sub' text'
  end.

(** [text.find(sub)]: the lowest index at which [sub] occurs; [None] is
    Python's [-1]. *)
Fixpoint find (text sub : str) : option nat :=
  if startswith sub text then Some 0%nat
  else match text with
       | [] => None
       | _ :: rest => S <$> find rest sub
       end.

(** [text[a:b]] for [0 <= a], [0 <= b]. *)
Definition slice (text : str) (a b : nat) : str := take (b - a)%nat (drop a text).

(** Python's [x or y] for an optional string [x]: [None] and the empty
    string are falsy. *)
Definition py_or {A} (x : option str) (inj : str → A) (y : A) : A :=
  match x with
  | Some (c :: s) => inj (c :: s)
  | _ => y
  end.

(** ** strip_code_fences

    [re.search(r"```(?:json)?\s*([\s\S]*?)```", text, re.IGNORECASE)],
    written as the backtracking matcher the pattern denotes.  Each function
    matches a suffix of the pattern at the head of its argument and returns
    group 1 of the first successful alternative. *)

Definition FENCE : str := [BACKTICK; BACKTICK; BACKTICK].

(** Literal characters of [json] under [re.IGNORECASE]; [s] also matches
    U+017F. *)
Definition ci_j (c : char) : bool := (c =? 106) || (c =? 74).
Definition ci_s (c : char) : bool := (c =? 115) || (c =? 83) || (c =? 383).
Definition ci_o (c : char) : bool := (c =? 111) || (c =? 79).
Definition ci_n (c : char) : bool := (c =? 110) || (c =? 78).

(** [([\s\S]*?)```] : the lazy group takes the fewest characters. *)
Fixpoint re_group_close (s : str) : option str :=
  if startswith FENCE s then Some []
  else match s with
       | [] => None
       | c :: rest => (c ::.) <$> re_group_close rest
       end.

(** [\s*([\s\S]*?)```] : the greedy star takes a whitespace character
    first and gives it back when the rest fails. *)
Fixpoint re_spaces (s : str) : option str :=
  match s with
  | c :: rest =>
      if isspace c then
        match re_spaces rest with
        | Some g => Some g
        | None => re_group_close s
        end
      else re_group_close s
  | [] => re_group_close s
  end.

(** [(?:json)?\s*([\s\S]*?)```] : the optional group is tried first. *)
Definition re_json_opt (s : str) : option str :=
  match s with
  | j :: s0 :: o :: n :: rest =>
      if ci_j j && ci_s s0 && ci_o o && ci_n n then
        match re_spaces rest with
        | Some g => Some g
        | None => re_spaces s
        end
      else re_spaces s
  | _ => re_spaces s
  end.

(** The whole pattern anchored at the head of [s]. *)
Definition re_match_here (s : str) : option str :=
  if startswith FENCE s then re_json_opt (drop 3 s) else None.

(** [re.search]: the leftmost position at which the pattern matches;
    the result is [fence.group(1)]. *)
Fixpoint re_search_fence (text : str) : option str :=
  match re_match_here text with
  | Some g => Some g
  | None => match text with
            | [] => None
            | _ :: rest => re_search_fence rest
            end
  end.

Definition strip_code_fences (text : str) : str :=
  match re_search_fence text with
  | Some g => strip g
  | None => text
  end.

(** ** extract_balanced_block *)

(** The loop variables [depth, in_str, esc, quote]. *)
Record scan_state := ScanState {
  depth : Z;
  in_str : bool;
  esc : bool;
  quote : option char
}.

Definition scan_init : scan_state := ScanState 0 false false None.

(** [ch == s] for a one-character string [ch] and any string [s]. *)
Definition ch_eq (ch : char) (s : str) : bool :=
  match s with
  | [c] => ch =? c
  | _ => false
  end.

(** The body of the [for] loop at index [i] on character [ch]: either the
    [return] of line 58 ([inl], the index of the closing bracket) or the
    loop variables for the next iteration. *)
Definition scan_step (open_ch close_ch : str) (st : scan_state) (i : nat) (ch : char)
  : nat + scan_state :=
  if in_str st then
    if esc st then inr (ScanState (depth st) true false (quote st))
    else if ch =? BACKSLASH then inr (ScanState (depth st) true true (quote st))
    else if bool_decide (quote st = Some ch)
         then inr (ScanState (depth st) false (esc st) (quote st))
    else inr st
  else
    if (ch =? DQUOTE) || (ch =? SQUOTE)
    then inr (ScanState (depth st) true (esc st) (Some ch))
    else if ch_eq ch open_ch
    then inr (ScanState (depth st + 1) (in_str st) (esc st) (quote st))
    else if ch_eq ch close_ch then
      if (depth st - 1 =? 0)%Z then inl i
      else inr (ScanState (depth st - 1) (in_str st) (esc st) (quote st))
    else inr st.

(** [for i, ch in enumerate(rest, i)]: the index of the closing bracket
    at which the loop returns, [None] when the loop runs off the end. *)
Fixpoint scan_loop (open_ch close_ch : str) (st : scan_state) (i : nat) (rest : str)
  : option nat :=
  match rest with
  | [] => None
  | ch :: rest' =>
      match scan_step open_ch close_ch st i ch with
      | inl j => Some j
      | inr st' => scan_loop open_ch close_ch st' (S i) rest'
      end
  end.

Definition extract_balanced_block (text open_ch close_ch : str) : option str :=
  match find text open_ch with
  | None => None
  | Some start =>
      match scan_loop open_ch close_ch scan_init start (drop start text) with
      | Some i => Some (slice text start (i + 1))
      | None => None
      end
  end.

(** ** extract_first_json *)

Definition extract_first_json (text : str) : option str :=
  let cleaned := lstrip (strip_code_fences text) in
  py_or (extract_balanced_block cleaned [LBRACKET] [RBRACKET]) Some
        (extract_balanced_block cleaned [LBRACE] [RBRACE]).


(** ** Python values

    What [json.loads] returns and what a stored document holds. *)

#[warnings="-register-all"]
Inductive pyval :=
| PNone
| PBool (b : bool)
| PInt (n : Z)
| PFloat (bits : Z)            (* a float, by its IEEE-754 bit pattern *)
| PStr (s : str)
| PList (l : list pyval)
| PDict (d : gmap str pyval).

(** [bool(v)]. *)
Definition py_truth (v : pyval) : bool :=
  match v with
  | PNone => false
  | PBool b => b
  | PInt n => negb (n =? 0)%Z
  | PFloat bits => negb ((bits =? 0)%Z || (bits =? 2 ^ 63)%Z)
  | PStr s => negb (bool_decide (s = []))
  | PList l => negb (bool_decide (length l = 0%nat))
  | PDict d => negb (bool_decide (size d = 0%nat))
  end.

(** The document handed to [collection.insert_one]. *)
Record record := Record_ {
  filename : str;
  title : pyval;
  summary : pyval;
  tags : pyval;
  original : pyval;
  timestamp : Z                (* the float returned by [time.time()] *)
}.

(** ** The world of process_text *)

(** The lines [process_text] prints. *)
Inductive line :=
| WarnRetry (file : str) (attempt_plus_1 max_retries : Z)
| ErrorParse (file : str)
| RawOutput (shown : str)
| InfoProcessed (file : str) (count : nat).

(** What a run has done so far: the requests posted to the backend (each
    with the [fix_mode] flag of the [call_model] invocation that sent it),
    the documents [insert_one] was called with, the documents the
    collection holds, the number of clock readings, and standard output. *)
Record world := World {
  requests : list (bool * str);
  insert_calls : list record;
  collection : list record;
  clock_reads : nat;
  stdout : list line
}.

Definition world0 : world := World [] [] [] 0 [].

(** The reply to a POST: an exception ([requests.post] or
    [raise_for_status] raises, or the body is not JSON) or the decoded
    body [resp.json()]. *)
Inductive http_reply :=
| HttpFailure
| HttpBody (body : pyval).

(** The collaborators outside the repository. *)
Record collaborators := Collaborators {
  (** the reply of [AI_ENDPOINT] to the [k]-th request, by its prompt *)
  backend : nat → str → http_reply;
  (** [json.loads]; [None] is [json.JSONDecodeError], the exception the
      repair loop catches *)
  json_loads : str → option pyval;
  (** whether [collection.insert_one] accepts a document, given the
      documents already stored; [false] is any exception it raises *)
  insert_accepts : list record → record → bool;
  (** the [k]-th reading of [time.time()] *)
  time_time : nat → Z
}.

Inductive exn :=
| RequestError          (* raised by requests / raise_for_status / resp.json *)
| AttributeError        (* [.get] or [.strip] on a value without it *)
| UnboundLocalError     (* [sections] read before assignment *)
| InsertError.          (* raised by [collection.insert_one] *)

Inductive res (A : Type) :=
| Ok (a : A)
| Raise (e : exn).
Arguments Ok {A} a.
Arguments Raise {A} e.

(** Computations of [process_text]: they read and extend the world and
    end in a value or an exception. *)
Definition M (A : Type) : Type := world → res A * world.

#[global] Instance M_ret : MRet M := λ A a w, (Ok a, w).
#[global] Instance M_bind : MBind M := λ A B f m w,
  match m w with
  | (Ok a, w') => f a w'
  | (Raise e, w') => (Raise e, w')
  end.

Definition raise {A} (e : exn) : M A := λ w, (Raise e, w).

Definition lift {A} (r : res A) : M A := λ w, (r, w).

Definition print (l : line) : M unit := λ w,
  (Ok (), World (requests w) (insert_calls w) (collection w) (clock_reads w)
                (stdout w ++ [l])).

(** The two exits of [process_text] that return normally: the [return] of
    line 137 after the error report, and the end of the body after the
    inserts. *)
Inductive exit := Failed | Done.

(** How the [for attempt] loop is left. *)
Inductive loop_exit :=
| LoopBreak (sections : list pyval)   (* [break], [sections] bound *)
| LoopReturn                          (* [return] of line 137 *)
| LoopEnd.                            (* range exhausted, nothing bound *)

Definition prompt_text (text : str) : str :=
  lit "Split the following text into sections by topic." ++ [NL]
  ++ lit "Return a JSON array of objects with fields: "
  ++ lit "title (string), summary (string), tags (array of strings), content (string)."
  ++ [NL]
  ++ lit "If a value is missing, use an empty string or empty array." ++ [NL; NL]
  ++ lit "TEXT:" ++ [NL] ++ text.

(** [json.dumps(schema)]. *)
Definition schema_json : str :=
  jlit "{'type': 'array', 'items': {'type': 'object', 'properties': {'title': {'type': 'string'}, 'summary': {'type': 'string'}, 'tags': {'type': 'array', 'items': {'type': 'string'}}, 'content': {'type': 'string'}}, 'required': ['title', 'summary', 'tags', 'content'], 'additionalProperties': false}}".

Definition fix_prompt (data : str) : str :=
  lit "Fix the following so it becomes valid JSON matching this schema exactly. "
  ++ lit "Output JSON only, no explanations." ++ [NL; NL]
  ++ lit "SCHEMA:" ++ [NL] ++ schema_json ++ [NL; NL]
  ++ lit "DATA:" ++ [NL] ++ data.

(** [raw[:2000] + '...' if len(raw) > 2000 else raw]. *)
Definition preview (raw : str) : str :=
  if (2000 <? length raw)%nat then take 2000 raw ++ lit "..." else raw.

(** [(body.get("response") or "").strip()] for the decoded body of a
    reply. *)
Definition response_text (body : pyval) : res str :=
  match body with
  | PDict d =>
      let r := default PNone (d !! lit "response") in
      match (if py_truth r then r else PStr []) with
      | PStr s => Ok (strip s)
      | _ => Raise AttributeError
      end
  | _ => Raise AttributeError
  end.

Section Pipeline.
Context (E : collaborators).

(** [requests.post(AI_ENDPOINT, json=payload, timeout=120)] through
    [resp.json()]. *)
Definition post (fix_mode : bool) (prompt : str) : M pyval := λ w,
  let w' := World (requests w ++ [(fix_mode, prompt)]) (insert_calls w)
                  (collection w) (clock_reads w) (stdout w) in
  match backend E (length (requests w)) prompt with
  | HttpFailure => (Raise RequestError, w')
  | HttpBody body => (Ok body, w')
  end.

Definition call_model (prompt : str) (fix_mode : bool) : M str :=
  body ← post fix_mode (if fix_mode then fix_prompt prompt else prompt);
  lift (response_text body).

(** [extract_first_json(raw) or raw.strip()]. *)
Definition candidate_of (raw : str) : str :=
  py_or (extract_first_json raw) id (strip raw).

(** [if not isinstance(sections, list): sections = [sections]]. *)
Definition as_sections (v : pyval) : list pyval :=
  match v with
  | PList l => l
  | _ => [v]
  end.

(** The [for attempt in range(max_retries + 1)] loop over the attempts
    still to run, with the current [raw]. *)
Fixpoint repair_loop (file : str) (max_retries : Z) (attempts : list Z) (raw : str)
  : M loop_exit :=
  match attempts with
  | [] => mret LoopEnd
  | attempt :: more =>
      let candidate := candidate_of raw in
      match json_loads E candidate with
      | Some v => mret (LoopBreak (as_sections v))
      | None =>
          if (attempt <? max_retries)%Z then
            print (WarnRetry file (attempt + 1) max_retries);;
            raw' ← call_model candidate true;
            repair_loop file max_retries more raw'
          else
            print (ErrorParse file);;
            print (RawOutput (preview raw));;
            mret LoopReturn
      end
  end.

(** [section.get(key, dflt)]. *)
Definition section_get (section : pyval) (key : str) (dflt : pyval) : M pyval :=
  match section with
  | PDict d => mret (default dflt (d !! key))
  | _ => raise AttributeError
  end.

Definition now : M Z := λ w,
  (Ok (time_time E (clock_reads w)),
   World (requests w) (insert_calls w) (collection w) (S (clock_reads w)) (stdout w)).

Definition insert_one (doc : record) : M unit := λ w,
  let calls := insert_calls w ++ [doc] in
  if insert_accepts E (collection w) doc
  then (Ok (), World (requests w) calls (collection w ++ [doc]) (clock_reads w) (stdout w))
  else (Raise InsertError,
        World (requests w) calls (collection w) (clock_reads w) (stdout w)).

(** The document built for one section (lines 141-148). *)
Definition build_record (file : str) (section : pyval) : M record :=
  t ← section_get section (lit "title") (PStr []);
  s ← section_get section (lit "summary") (PStr []);
  g ← section_get section (lit "tags") (PList []);
  c ← section_get section (lit "content") (PStr []);
  ts ← now;
  mret (Record_ file t s g c ts).

(** [for section in sections: collection.insert_one({...})]. *)
Fixpoint insert_sections (file : str) (sections : list pyval) : M unit :=
  match sections with
  | [] => mret ()
  | section :: more =>
      doc ← build_record file section;
      insert_one doc;;
      insert_sections file more
  end.

(** Lines 139-150, entered by the way the loop was left. *)
Definition after_loop (file : str) (r : loop_exit) : M exit :=
  match r with
  | LoopReturn => mret Failed
  | LoopEnd => raise UnboundLocalError
  | LoopBreak sections =>
      insert_sections file sections;;
      print (InfoProcessed file (length sections));;
      mret Done
  end.

(** Lines 122-150 from the attempts still to run and the current [raw]. *)
Definition validate_and_store (file : str) (max_retries : Z) (attempts : list Z)
    (raw : str) : M exit :=
  r ← repair_loop file max_retries attempts raw;
  after_loop file r.

Definition process_text (text file : str) (max_retries : Z) : M exit :=
  raw ← call_model (prompt_text text) false;
  validate_and_store file max_retries (seqZ 0 (max_retries + 1)) raw.

End Pipeline.

(** ** Notions the specification uses *)

(** A triple backtick occurs in [s]. *)
Definition has_fence (s : str) : Prop := ∃ pre post, s = pre ++ FENCE ++ post.

Definition is_quote (ch : char) : bool := (ch =? DQUOTE) || (ch =? SQUOTE).

(** The nesting depth and string-literal mode of section 4.2 after one
    more character, with no early exit: the depth counts the opening and
    closing brackets met outside string literals; a quote enters a
    literal, the same quote leaves it, and a backslash inside a literal
    hides the next character. *)
Definition advance (open_ch close_ch : str) (st : scan_state) (ch : char) : scan_state :=
  if in_str st then
    if esc st then ScanState (depth st) true false (quote st)
    else if ch =? BACKSLASH then ScanState (depth st) true true (quote st)
    else if bool_decide (quote st = Some ch)
         then ScanState (depth st) false (esc st) (quote st)
    else st
  else if is_quote ch then ScanState (depth st) true (esc st) (Some ch)
  else if ch_eq ch open_ch then ScanState (depth st + 1) (in_str st) (esc st) (quote st)
  else if ch_eq ch close_ch then ScanState (depth st - 1) (in_str st) (esc st) (quote st)
  else st.

Definition scan_all (open_ch close_ch : str) (st : scan_state) (p : str) : scan_state :=
  foldl (advance open_ch close_ch) st p.

(** The bracket depth after reading all of [p] from the start of a scan. *)
Definition bracket_depth (open_ch close_ch : str) (p : str) : Z :=
  depth (scan_all open_ch close_ch scan_init p).

(** No close at depth zero: from the first opening bracket on, the depth
    is never back at zero. *)
Definition unbalanced (text open_ch close_ch : str) : Prop :=
  ∃ start, find text open_ch = Some start ∧
    ∀ p, p `prefix_of` drop start text → p ≠ [] → bracket_depth open_ch close_ch p ≠ 0%Z.

(** The characters of a string literal opened by [q], up to its closing
    quote: characters other than [q] and the backslash, and backslash
    pairs. *)
Inductive quoted (q : char) : str → Prop :=
| quoted_nil : quoted q []
| quoted_plain ch s :
    ch ≠ q → ch ≠ BACKSLASH → quoted q s → quoted q (ch :: s)
| quoted_escape ch s :
    quoted q s → quoted q (BACKSLASH :: ch :: s).

(** Text in which the brackets [o], [c] met outside string literals are
    matched and every string literal is closed. *)
Inductive balanced (o c : char) : str → Prop :=
| balanced_nil : balanced o c []
| balanced_plain ch s :
    is_quote ch = false → ch ≠ o → ch ≠ c →
    balanced o c s → balanced o c (ch :: s)
| balanced_quoted q b s :
    is_quote q = true → quoted q b →
    balanced o c s → balanced o c (q :: b ++ q :: s)
| balanced_nested b s :
    balanced o c b → balanced o c s → balanced o c (o :: b ++ c :: s).

(** The balanced block of the glossary. *)
Definition block (o c : char) (s : str) : Prop :=
  ∃ b, s = o :: b ++ [c] ∧ balanced o c b.

(** *** JSON text (RFC 8259) *)

Definition COMMA : char := 44.
Definition COLON : char := 58.

Definition is_digit (c : char) : bool := (48 <=? c) && (c <=? 57).
Definition is_hex (c : char) : bool :=
  is_digit c || ((97 <=? c) && (c <=? 102)) || ((65 <=? c) && (c <=? 70)).
Definition is_json_ws (c : char) : bool :=
  (c =? 32) || (c =? 9) || (c =? 10) || (c =? 13).
(** The characters that may follow a backslash: the two quotes of JSON
    escapes, [/ b f n r t]. *)
Definition is_escape (c : char) : bool :=
  (c =? DQUOTE) || (c =? BACKSLASH) || (c =? 47) || (c =? 98) || (c =? 102)
  || (c =? 110) || (c =? 114) || (c =? 116).

Definition json_ws (w : str) : Prop := Forall (λ c, is_json_ws c = true) w.
Definition digits (ds : str) : Prop := ds ≠ [] ∧ Forall (λ c, is_digit c = true) ds.

Definition json_int (s : str) : Prop :=
  s = [48] ∨ ∃ d ds, s = d :: ds ∧ 49 ≤ d ≤ 57 ∧ Forall (λ c, is_digit c = true) ds.
Definition json_frac (s : str) : Prop :=
  s = [] ∨ ∃ ds, s = 46 :: ds ∧ digits ds.
Definition json_exp (s : str) : Prop :=
  s = [] ∨ ∃ e sg ds, s = e :: sg ++ ds ∧ (e = 101 ∨ e = 69)
                       ∧ (sg = [] ∨ sg = [43] ∨ sg = [45]) ∧ digits ds.
Definition json_number (s : str) : Prop :=
  ∃ sg i f e, s = sg ++ i ++ f ++ e ∧ (sg = [] ∨ sg = [45])
              ∧ json_int i ∧ json_frac f ∧ json_exp e.

Definition json_scalar (s : str) : Prop :=
  s = lit "true" ∨ s = lit "false" ∨ s = lit "null" ∨ json_number s.

(** The characters between the quotes of a JSON string. *)
Inductive json_chars : str → Prop :=
| jc_nil : json_chars []
| jc_plain ch s :
    ch ≠ DQUOTE → ch ≠ BACKSLASH → 32 ≤ ch → json_chars s → json_chars (ch :: s)
| jc_escape e s :
    is_escape e = true → json_chars s → json_chars (BACKSLASH :: e :: s)
| jc_unicode h1 h2 h3 h4 s :
    is_hex h1 = true → is_hex h2 = true → is_hex h3 = true → is_hex h4 = true →
    json_chars s → json_chars (BACKSLASH :: 117 :: h1 :: h2 :: h3 :: h4 :: s).

Inductive json_value : str → Prop :=
| jv_scalar s : json_scalar s → json_value s
| jv_string b : json_chars b → json_value (DQUOTE :: b ++ [DQUOTE])
| jv_array a : json_array a → json_value a
| jv_object ob : json_object ob → json_value ob
with json_array : str → Prop :=
| ja_empty w : json_ws w → json_array (LBRACKET :: w ++ [RBRACKET])
| ja_elements els : json_elements els → json_array (LBRACKET :: els ++ [RBRACKET])
with json_object : str → Prop :=
| jo_empty w : json_ws w → json_object (LBRACE :: w ++ [RBRACE])
| jo_members ms : json_members ms → json_object (LBRACE :: ms ++ [RBRACE])
with json_elements : str → Prop :=
| je_last w1 v w2 :
    json_ws w1 → json_value v → json_ws w2 → json_elements (w1 ++ v ++ w2)
| je_cons w1 v w2 els :
    json_ws w1 → json_value v → json_ws w2 → json_elements els →
    json_elements (w1 ++ v ++ w2 ++ COMMA :: els)
with json_members : str → Prop :=
| jm_last w1 k w2 w3 v w4 :
    json_ws w1 → json_chars k → json_ws w2 → json_ws w3 → json_value v → json_ws w4 →
    json_members (w1 ++ DQUOTE :: k ++ DQUOTE :: w2 ++ COLON :: w3 ++ v ++ w4)
| jm_cons w1 k w2 w3 v w4 ms :
    json_ws w1 → json_chars k → json_ws w2 → json_ws w3 → json_value v → json_ws w4 →
    json_members ms →
    json_members (w1 ++ DQUOTE :: k ++ DQUOTE :: w2 ++ COLON :: w3 ++ v ++ w4
                  ++ COMMA :: ms).

Scheme json_value_mut := Minimality for json_value Sort Prop
  with json_array_mut := Minimality for json_array Sort Prop
  with json_object_mut := Minimality for json_object Sort Prop
  with json_elements_mut := Minimality for json_elements Sort Prop
  with json_members_mut := Minimality for json_members Sort Prop.
Combined Scheme json_mutind from json_value_mut, json_array_mut, json_object_mut,
  json_elements_mut, json_members_mut.

(** The two bracket pairs the pipeline scans for. *)
Definition bracket_pair (o c : char) : Prop :=
  (o = LBRACKET ∧ c = RBRACKET) ∨ (o = LBRACE ∧ c = RBRACE).

(** Neither a quote nor a bracket nor a brace. *)
Definition is_plain (ch : char) : bool :=
  negb (is_quote ch) && negb (ch =? LBRACKET) && negb (ch =? RBRACKET)
  && negb (ch =? LBRACE) && negb (ch =? RBRACE).

(** *** The record materializer *)

(** The document of section 4.5 for the object [d], stamped with the
    [k]-th clock reading. *)
Definition doc_of (E : collaborators) (file : str) (k : nat) (d : gmap str pyval)
  : record :=
  Record_ file
    (default (PStr []) (d !! lit "title"))
    (default (PStr []) (d !! lit "summary"))
    (default (PList []) (d !! lit "tags"))
    (default (PStr []) (d !! lit "content"))
    (time_time E k).

(** The documents of a sequence of objects, in order, the first stamped
    with the [k]-th clock reading. *)
Definition docs_from (E : collaborators) (file : str) (k : nat)
    (ds : list (gmap str pyval)) : list record :=
  imap (λ i d, doc_of E file (k + i) d) ds.

(** The collection accepts the documents of [ds] one after the other,
    starting from the world [w]. *)
Definition accepts_all (E : collaborators) (file : str) (w : world)
    (ds : list (gmap str pyval)) : Prop :=
  ∀ i d, ds !! i = Some d →
    insert_accepts E
      (collection w ++ docs_from E file (clock_reads w) (take i ds))
      (doc_of E file (clock_reads w + i) d) = true.

(** The world after the documents [docs] went into the collection, one
    clock reading each. *)
Definition stored (w : world) (docs : list record) : world :=
  World (requests w) (insert_calls w ++ docs) (collection w ++ docs)
        (clock_reads w + length docs) (stdout w).

(** Every reply of the backend carries a response, and no candidate
    taken from a response parses. *)
Definition never_parses (E : collaborators) : Prop :=
  ∀ k prompt, ∃ body raw,
    backend E k prompt = HttpBody body ∧ response_text body = Ok raw
    ∧ json_loads E (candidate_of raw) = None.

(** ** Example inputs *)

(** A backend that answers every request with the same response text. *)
Definition constant_backend (response : str) : nat → str → http_reply :=
  λ _ _, HttpBody (PDict {[ lit "response" := PStr response ]}).

(** A [json.loads] restricted to the one text the example needs. *)
Definition parses_only (text : str) (v : pyval) : str → option pyval :=
  λ s, if bool_decide (s = text) then Some v else None.

Definition section_titled (t : string) : gmap str pyval :=
  {[ lit "title" := PStr (lit t) ]}.

(** The backend never produces JSON. *)
Definition E_never : collaborators :=
  Collaborators (constant_backend (lit "Sorry, no."))
                (λ _, None) (λ _ _, true) (λ k, Z.of_nat k).

(** The backend answers with two sections; the collection takes what
    [accepts] lets in. *)
Definition two_sections_json : str := jlit "[{'title': 'A'}, {'title': 'B'}]".

Definition E_two_sections (accepts : list record → record → bool) : collaborators :=
  Collaborators (constant_backend two_sections_json)
                (parses_only two_sections_json
                   (PList [PDict (section_titled "A"); PDict (section_titled "B")]))
                accepts (λ k, Z.of_nat k).

(** A collection that rejects the documents titled [t] and accepts every
    other document. *)
Definition rejects_title (t : string) : list record → record → bool :=
  λ _ doc, match title doc with
           | PStr s => negb (bool_decide (s = lit t))
           | _ => true
           end.

(** The backend answers with an array whose second element is a number. *)
Definition ill_shaped_json : str := jlit "[{'title': 'A'}, 5]".

Definition E_ill_shaped : collaborators :=
  Collaborators (constant_backend ill_shaped_json)
                (parses_only ill_shaped_json
                   (PList [PDict (section_titled "A"); PInt 5]))
                (λ _ _, true) (λ k, Z.of_nat k).

(** The backend answers with one bare object that holds no array. *)
Definition bare_object_json : str := jlit "{'title':'T','summary':'','content':'c'}".

Definition bare_object : gmap str pyval :=
  {[ lit "title" := PStr (lit "T"); lit "summary" := PStr [];
     lit "content" := PStr (lit "c") ]}.

Definition E_bare_object : collaborators :=
  Collaborators (constant_backend bare_object_json)
                (parses_only bare_object_json (PDict bare_object))
                (λ _ _, true) (λ k, Z.of_nat k).

(** Scenario 3 of section 8: the bare object has an (empty) [tags] array.
    [json.loads] is given on the two texts that can reach it. *)
Definition scenario3_json : str :=
  jlit "{'title':'T','summary':'','tags':[],'content':'c'}".

Definition scenario3_object : gmap str pyval :=
  {[ lit "title" := PStr (lit "T"); lit "summary" := PStr [];
     lit "tags" := PList []; lit "content" := PStr (lit "c") ]}.

Definition E_scenario3 : collaborators :=
  Collaborators (constant_backend scenario3_json)
                (λ s, if bool_decide (s = scenario3_json) then Some (PDict scenario3_object)
                      else if bool_decide (s = lit "[]") then Some (PList [])
                      else None)
                (λ _ _, true) (λ k, Z.of_nat k).

(** A bare section object as the schema wants it, with a non-empty
    [tags] array. *)
Definition tagged_object_json : str :=
  jlit "{'title':'T','summary':'s','tags':['a'],'content':'c'}".

Definition E_tagged_object : collaborators :=
  Collaborators (constant_backend tagged_object_json)
                (λ s, if bool_decide (s = tagged_object_json)
                      then Some (PDict {[ lit "title" := PStr (lit "T");
                                          lit "summary" := PStr (lit "s");
                                          lit "tags" := PList [PStr (lit "a")];
                                          lit "content" := PStr (lit "c") ]})
                      else if bool_decide (s = jlit "['a']")
                      then Some (PList [PStr (lit "a")])
                      else None)
                (λ _ _, true) (λ k, Z.of_nat k).

(** A fenced reply, and an object that holds an array. *)
Definition fenced_reply : str :=
  lit "```json" ++ [NL] ++ jlit "[{'t': ']'}, 2]" ++ [NL] ++ lit "```".

Definition object_with_array : str := jlit "{'a':[1]}".

(** ** The event handler *)

(** [text.endswith(suffix)]. *)
Definition endswith (suffix text : str) : bool :=
  startswith (reverse suffix) (reverse text).

(** A watchdog event, by the two attributes [on_created] reads. *)
Record event := Event {
  is_directory : bool;
  src_path : str
}.

(** What [on_created] takes from the standard library and the file
    system: [str.lower] (the Unicode case mapping), [os.path.basename],
    and [open(path, "r", encoding="utf-8").read()], where [None] is any
    exception of opening, reading or decoding. *)
Record host := Host {
  str_lower : str → str;
  path_basename : str → str;
  read_text : str → option str
}.

(** How [on_created] ends; it returns [None] on every path.  [Reported]
    is the [except Exception] clause, which prints the file name and the
    exception of [process_text], or of reading the file ([None]). *)
Inductive handled :=
| Ignored
| Processed (e : exit)
| Reported (file : str) (e : option exn).

(** The [max_retries] that [on_created] leaves at its default. *)
Definition DEFAULT_MAX_RETRIES : Z := 1.

Definition on_created (E : collaborators) (H : host) (ev : event)
  : world → handled * world := λ w,
  if is_directory ev then (Ignored, w)
  else if endswith (lit ".txt") (str_lower H (src_path ev)) then
    let file := path_basename H (src_path ev) in
    match read_text H (src_path ev) with
    | None => (Reported file None, w)
    | Some text =>
        match process_text E text file DEFAULT_MAX_RETRIES w with
        | (Ok e, w') => (Processed e, w')
        | (Raise e, w') => (Reported file (Some e), w')
        end
    end
  else (Ignored, w).

(** ** More notions for stating properties *)

(** [s] is a contiguous part of [t]. *)
Definition within (s t : str) : Prop := ∃ pre post, t = pre ++ s ++ post.

(** The inside of a fence without the optional language tag [json]. *)
Definition skip_json_tag (inner : str) : str :=
  match inner with
  | j :: s0 :: o :: n :: rest =>
      if ci_j j && ci_s s0 && ci_o o && ci_n n then rest else inner
  | _ => inner
  end.

(** The text has no closing fence: no triple backtick at all, or none
    after the first one. *)
Definition no_closing_fence (text : str) : bool :=
  match find text FENCE with
  | None => true
  | Some n => bool_decide (find (drop (n + 3) text) FENCE = None)
  end.




(** The backend is down. *)
Definition E_down : collaborators :=
  Collaborators (λ _ _, HttpFailure) (λ _, None) (λ _ _, true) (λ k, Z.of_nat k).

(** The first answer is cut short, the answer to the fix request is the
    two sections. *)
Definition cut_json : str := jlit "Sure! [{'title': 'X'".

Definition E_repaired : collaborators :=
  Collaborators
    (λ k _, HttpBody (PDict {[ lit "response" :=
               PStr (if bool_decide (k = 0%nat) then cut_json else two_sections_json) ]}))
    (parses_only two_sections_json
       (PList [PDict (section_titled "A"); PDict (section_titled "B")]))
    (λ _ _, true) (λ k, Z.of_nat k).

(** A host with ASCII lower-casing of the letters of [.TXT], the part
    after the last slash as base name, and one readable file. *)
Definition ascii_lower (c : char) : char :=
  if (65 <=? c) && (c <=? 90) then c + 32 else c.

Fixpoint after_last_slash (p : str) : str :=
  match p with
  | [] => []
  | c :: rest =>
      if existsb (N.eqb 47) rest then after_last_slash rest
      else if c =? 47 then rest else p
  end.

Definition example_host : host :=
  Host (fmap ascii_lower) after_last_slash
       (λ p, if bool_decide (p = lit "/mnt/storage/Note.TXT")
             then Some (lit "Intro. Body.") else None).

(** * Properties *)

(** ** Strings *)

Lemma startswith_prefix sub text :
  startswith sub text = true ↔ sub `prefix_of` text.
Proof.
  revert text. induction sub as [|a sub IH]; intros [|b text]; simpl.
  - split; [intros _; apply prefix_nil | done].
  - split; [intros _; apply prefix_nil | done].
  - split; [done | intros H; by apply prefix_nil_not in H].
  - rewrite andb_true_iff, N.eqb_eq, IH. split.
    + intros [-> H]. by apply prefix_cons.
    + intros H. split; [by apply prefix_cons_inv_1 in H | by apply prefix_cons_inv_2 in H].
Qed.

Lemma startswith_app sub post : startswith sub (sub ++ post) = true.
Proof. apply startswith_prefix. by exists post. Qed.

Lemma lstrip_suffix text : lstrip text `suffix_of` text.
Proof.
  induction text as [|c text IH]; simpl; [done|].
  destruct (isspace c); [by apply suffix_cons_r | done].
Qed.

Lemma rstrip_prefix text : rstrip text `prefix_of` text.
Proof.
  unfold rstrip. rewrite <-(reverse_involutive text) at 2.
  apply suffix_prefix_reverse, lstrip_suffix.
Qed.


Lemma has_fence_suffix s t : s `suffix_of` t → has_fence s → has_fence t.
Proof.
  intros [k ->] (pre & post & ->). exists (k ++ pre), post. by rewrite <-app_assoc.
Qed.

Lemma has_fence_prefix s t : s `prefix_of` t → has_fence s → has_fence t.
Proof.
  intros [k ->] (pre & post & ->). exists pre, (post ++ k). by rewrite <-!app_assoc.
Qed.

Lemma has_fence_strip s : has_fence (strip s) → has_fence s.
Proof.
  intros H. eapply has_fence_suffix; [apply lstrip_suffix|].
  eapply has_fence_prefix; [apply rstrip_prefix|]. exact H.
Qed.

Lemma has_fence_cons c s :
  has_fence (c :: s) → startswith FENCE (c :: s) = true ∨ has_fence s.
Proof.
  intros (pre & post & H). destruct pre as [|a pre].
  - left. rewrite H. apply (startswith_app FENCE post).
  - right. injection H as _ ->. by exists pre, post.
Qed.

(** ** The fence pattern *)

Lemma re_group_close_spec s g :
  re_group_close s = Some g → g ++ FENCE `prefix_of` s ∧ ¬ has_fence g.
Proof.
  revert g. induction s as [|c s IH]; intros g; cbn [re_group_close].
  - done.
  - destruct (startswith FENCE (c :: s)) eqn:Hf.
    + intros [= <-]. split; [by apply startswith_prefix|].
      intros (pre & post & H). by destruct pre.
    + destruct (re_group_close s) as [g'|] eqn:Hg; [|done].
      intros [= <-]. destruct (IH g' eq_refl) as [Hp Hn]. split.
      * by apply prefix_cons.
      * intros [Hs|Hs]%has_fence_cons; [|done].
        apply startswith_prefix in Hs.
        assert (FENCE `prefix_of` c :: s) as Hc; [|apply startswith_prefix in Hc; congruence].
        etrans; [exact Hs|]. etrans; [|apply prefix_cons, Hp].
        by exists FENCE.
Qed.

Lemma re_spaces_no_fence s g : re_spaces s = Some g → ¬ has_fence g.
Proof.
  revert g. induction s as [|c s IH]; intros g; cbn [re_spaces].
  - intros H. by apply re_group_close_spec in H as [_ ?].
  - destruct (isspace c).
    + destruct (re_spaces s) as [g'|].
      * intros [= <-]. by apply IH.
      * intros H. by apply re_group_close_spec in H as [_ ?].
    + intros H. by apply re_group_close_spec in H as [_ ?].
Qed.

Lemma re_json_opt_no_fence s g : re_json_opt s = Some g → ¬ has_fence g.
Proof.
  unfold re_json_opt. intros H.
  repeat match type of H with
         | match ?x with _ => _ end = _ => destruct x eqn:?
         | (if ?x then _ else _) = _ => destruct x eqn:?
         end;
    simplify_eq; eauto using re_spaces_no_fence.
Qed.

Lemma re_search_fence_no_fence text g :
  re_search_fence text = Some g → ¬ has_fence g.
Proof.
  assert (∀ s, re_match_here s = Some g → ¬ has_fence g) as Hhere.
  { unfold re_match_here. intros s. destruct (startswith FENCE s); [|done].
    apply re_json_opt_no_fence. }
  induction text as [|c text IH]; cbn [re_search_fence].
  - destruct (re_match_here []) eqn:Hm; [|done]. intros [= <-]. eauto.
  - destruct (re_match_here (c :: text)) eqn:Hm; [intros [= <-]; eauto | exact IH].
Qed.

Lemma re_search_fence_None text : ¬ has_fence text → re_search_fence text = None.
Proof.
  induction text as [|c text IH]; intros Hn; cbn [re_search_fence].
  - done.
  - unfold re_match_here. destruct (startswith FENCE (c :: text)) eqn:Hf.
    + destruct Hn. apply startswith_prefix in Hf as [post ->]. by exists [], post.
    + apply IH. intros (pre & post & ->). apply Hn. by exists (c :: pre), post.
Qed.

(** C7. Sanitizer idempotence: for every text, stripping code fences from
    the output of [strip_code_fences] gives that output again. *)
Theorem strip_code_fences_idempotent (text : str) :
  strip_code_fences (strip_code_fences text) = strip_code_fences text.
Proof.
  unfold strip_code_fences at 2 3.
  destruct (re_search_fence text) as [g|] eqn:Hs.
  - unfold strip_code_fences. rewrite re_search_fence_None; [done|].
    intros H%has_fence_strip. by apply re_search_fence_no_fence in Hs.
  - unfold strip_code_fences. by rewrite Hs.
Qed.

(** ** find *)

Lemma startswith_single o text :
  startswith [o] text = true ↔ ∃ rest, text = o :: rest.
Proof.
  rewrite startswith_prefix. split.
  - intros [k ->]. by exists k.
  - intros [rest ->]. by exists rest.
Qed.

Lemma find_Some text sub n :
  find text sub = Some n →
  ∃ pre post, text = pre ++ sub ++ post ∧ length pre = n.
Proof.
  revert n. induction text as [|a text IH]; intros n; cbn [find].
  - destruct (startswith sub []) eqn:Hs; [|done].
    intros [= <-]. apply startswith_prefix in Hs as [k Hk]. by exists [], k.
  - destruct (startswith sub (a :: text)) eqn:Hs.
    + intros [= <-]. apply startswith_prefix in Hs as [k Hk]. by exists [], k.
    + destruct (find text sub) as [m|] eqn:Hm; [|done].
      intros [= <-]. destruct (IH m eq_refl) as (pre & post & -> & <-).
      by exists (a :: pre), post.
Qed.

Lemma find_single_first pre o rest :
  o ∉ pre → find (pre ++ o :: rest) [o] = Some (length pre).
Proof.
  induction pre as [|a pre IH]; intros Hn; cbn [find app].
  - by rewrite (proj2 (startswith_single o (o :: rest))) by eauto.
  - destruct (startswith [o] (a :: pre ++ o :: rest)) eqn:Hs.
    + apply startswith_single in Hs as [r [= -> _]]. destruct Hn. by left.
    + rewrite IH; [done|]. intros ?. apply Hn. by right.
Qed.

Lemma find_single_not_before o text n :
  find text [o] = Some n → o ∉ take n text.
Proof.
  revert n. induction text as [|a text IH]; intros n; cbn [find].
  - destruct (startswith [o] []); [intros [= <-]|done]. apply not_elem_of_nil.
  - destruct (startswith [o] (a :: text)) eqn:Hs.
    + intros [= <-]. apply not_elem_of_nil.
    + destruct (find text [o]) as [m|] eqn:Hm; [|done].
      intros [= <-]. cbn [take]. intros [->|Hin]%elem_of_cons.
      * by rewrite (proj2 (startswith_single a (a :: text))) in Hs by eauto.
      * by apply (IH m).
Qed.

(** ** The scan *)

Section Scan.
Context (open_ch close_ch : str).

Local Abbreviation step := (scan_step open_ch close_ch).
Local Abbreviation loop := (scan_loop open_ch close_ch).
Local Abbreviation adv := (advance open_ch close_ch).
Local Abbreviation run := (scan_all open_ch close_ch).

Lemma scan_step_inr st i ch st' : step st i ch = inr st' → st' = adv st ch.
Proof.
  unfold scan_step, advance, is_quote. intros H.
  repeat match type of H with
         | (if ?x then _ else _) = _ => destruct x eqn:?
         end; by simplify_eq.
Qed.

Lemma scan_step_inl st i ch j :
  step st i ch = inl j →
  j = i ∧ in_str st = false ∧ ch_eq ch close_ch = true ∧ depth st = 1%Z
  ∧ adv st ch = ScanState 0 (in_str st) (esc st) (quote st).
Proof.
  unfold scan_step, advance, is_quote. intros H.
  repeat match type of H with
         | (if ?x then _ else _) = _ => destruct x eqn:?
         end; simplify_eq.
  assert (depth st = 1%Z) as Hd by lia.
  repeat split; try done. by rewrite Hd.
Qed.

Lemma scan_all_snoc st p ch : run st (p ++ [ch]) = adv (run st p) ch.
Proof. unfold scan_all. by rewrite foldl_snoc. Qed.

Lemma scan_all_cons st p ch : run st (ch :: p) = run (adv st ch) p.
Proof. done. Qed.

(** A brace that is not a single non-quote character never raises the
    depth, so a scan at depth zero or below never returns. *)
Lemma scan_loop_never_opens st i rest :
  (∀ ch, is_quote ch = false → ch_eq ch open_ch = false) →
  (depth st ≤ 0)%Z → loop st i rest = None.
Proof.
  intros Hopen. revert st i. induction rest as [|ch rest IH]; intros st i Hd.
  - done.
  - cbn [scan_loop]. destruct (step st i ch) as [j|st'] eqn:Hs.
    + apply scan_step_inl in Hs as (_ & _ & _ & ? & _). lia.
    + apply IH. apply scan_step_inr in Hs as ->.
      unfold advance.
      repeat match goal with
             | |- context [if ?x then _ else _] => destruct x eqn:?
             end; cbn; try lia.
      by rewrite Hopen in *.
Qed.

(** A scan that starts at depth one or more and returns: the closing
    bracket brings the depth to zero, and the depth was positive at
    every point before it. *)
Lemma scan_loop_returns st i rest j :
  (1 ≤ depth st)%Z → loop st i rest = Some j →
  ∃ p ch post,
    rest = p ++ ch :: post ∧ j = (i + length p)%nat
    ∧ close_ch = [ch]
    ∧ depth (run st (p ++ [ch])) = 0%Z
    ∧ ∀ q, q `prefix_of` p → (1 ≤ depth (run st q))%Z.
Proof.
  revert st i. induction rest as [|ch rest IH]; intros st i Hd; [done|].
  cbn [scan_loop]. destruct (step st i ch) as [k|st'] eqn:Hs.
  - intros [= <-]. apply scan_step_inl in Hs as (-> & _ & Hc & _ & Ha).
    exists [], ch, rest. repeat split.
    + cbn. lia.
    + unfold ch_eq in Hc. destruct close_ch as [|c [|??]]; try done.
      by apply N.eqb_eq in Hc as ->.
    + cbn. by rewrite Ha.
    + intros q ->%prefix_nil_inv. done.
  - intros Hl. pose proof Hs as Hstep. apply scan_step_inr in Hs as ->.
    assert (1 ≤ depth (adv st ch))%Z as Hd'.
    { revert Hstep. unfold scan_step, advance, is_quote.
      repeat match goal with
             | |- context [if ?x then _ else _] => destruct x eqn:?
             end; cbn; intros; simplify_eq; lia. }
    destruct (IH _ _ Hd' Hl) as (p & c & post & -> & -> & Hc & H0 & Hq).
    exists (ch :: p), c, post. repeat split; try done.
    + cbn. lia.
    + intros [|a q] Hpre; [done|].
      pose proof (prefix_cons_inv_1 _ _ _ _ Hpre) as ->.
      apply prefix_cons_inv_2 in Hpre. rewrite scan_all_cons. by apply Hq.
Qed.
End Scan.

(** ** extract_balanced_block *)

Lemma ch_eq_single ch o : ch_eq ch [o] = (ch =? o).
Proof. done. Qed.

Lemma opens_or_not (open_ch : str) :
  (∃ o, open_ch = [o] ∧ is_quote o = false)
  ∨ (∀ ch, is_quote ch = false → ch_eq ch open_ch = false).
Proof.
  destruct open_ch as [|o [|o' rest]]; [by right| |by right].
  destruct (is_quote o) eqn:Hq; [right|left; eauto].
  intros ch Hch. rewrite ch_eq_single. apply N.eqb_neq. congruence.
Qed.

Lemma prefix_snoc_inv (q p : str) c :
  q `prefix_of` p ++ [c] → q = p ++ [c] ∨ q `prefix_of` p.
Proof.
  intros [k Hk]. destruct (decide (k = [])) as [->|Hne].
  - left. by rewrite app_nil_r in Hk.
  - right. destruct (exists_last Hne) as (k' & x & ->).
    rewrite app_assoc in Hk. apply app_inj_tail in Hk as [-> _]. by exists k'.
Qed.

(** What a returned block looks like. *)
Lemma extract_balanced_block_Some text open_ch close_ch s :
  extract_balanced_block text open_ch close_ch = Some s →
  ∃ o c start p post,
    open_ch = [o] ∧ is_quote o = false ∧ close_ch = [c]
    ∧ find text open_ch = Some start
    ∧ drop start text = s ++ post
    ∧ s = o :: p ++ [c]
    ∧ bracket_depth open_ch close_ch s = 0%Z
    ∧ ∀ q, q `prefix_of` p → (1 ≤ bracket_depth open_ch close_ch (o :: q))%Z.
Proof.
  unfold extract_balanced_block.
  destruct (find text open_ch) as [start|] eqn:Hfind; [|done].
  destruct (scan_loop open_ch close_ch scan_init start (drop start text))
    as [i|] eqn:Hloop; [|done].
  intros [= <-].
  destruct (find_Some _ _ _ Hfind) as (pre & post0 & Htext & Hlen).
  assert (drop start text = open_ch ++ post0) as Hdrop.
  { rewrite Htext, <-Hlen. apply drop_app_length. }
  destruct (opens_or_not open_ch) as [(o & -> & Hq)|Hno]; last first.
  { by rewrite scan_loop_never_opens in Hloop. }
  rewrite Hdrop in Hloop. cbn [app scan_loop] in Hloop.
  assert (scan_step [o] close_ch scan_init start o = inr (ScanState 1 false false None))
    as Hfirst.
  { unfold scan_step, is_quote in *. cbn [in_str scan_init].
    rewrite Hq, ch_eq_single, N.eqb_refl. done. }
  rewrite Hfirst in Hloop.
  apply scan_loop_returns in Hloop as (p & c & post & -> & -> & -> & H0 & Hpos);
    [|done].
  assert (adv1 : advance [o] [c] scan_init o = ScanState 1 false false None).
  { symmetry. by eapply scan_step_inr. }
  exists o, c, start, p, post.
  assert (slice text start (S start + length p + 1) = o :: p ++ [c]) as Hslice.
  { unfold slice. rewrite Hdrop. cbn [app].
    replace (S start + length p + 1 - start)%nat with (S (length (p ++ [c])))
      by (rewrite length_app; cbn; lia).
    cbn [take]. f_equal.
    replace (p ++ c :: post) with ((p ++ [c]) ++ post) by by rewrite <-app_assoc.
    apply take_app_length. }
  rewrite Hslice. repeat split; try done.
  - rewrite Hdrop. cbn. by rewrite <-app_assoc.
  - unfold bracket_depth. rewrite scan_all_cons, adv1. exact H0.
  - intros q Hpre. unfold bracket_depth. rewrite scan_all_cons, adv1. by apply Hpos.
Qed.

(** C10. Result invariant of [extract_balanced_block]: a returned string
    [s] is a contiguous part of the text that begins at the first
    occurrence of [open_ch]; [open_ch] and [close_ch] are single
    characters, the first and the last character of [s]; the bracket
    depth is zero after [s] and positive after every shorter non-empty
    prefix of it. *)
Theorem extract_balanced_block_invariant (text open_ch close_ch s : str) :
  extract_balanced_block text open_ch close_ch = Some s →
  ∃ o c pre post,
    open_ch = [o] ∧ close_ch = [c]
    ∧ text = pre ++ s ++ post
    ∧ find text open_ch = Some (length pre) ∧ (o ∉ pre)
    ∧ head s = Some o ∧ last s = Some c
    ∧ bracket_depth open_ch close_ch s = 0%Z
    ∧ ∀ p, p `prefix_of` s → p ≠ [] → p ≠ s →
           (0 < bracket_depth open_ch close_ch p)%Z.
Proof.
  intros (o & c & start & p & post & -> & Hq & -> & Hfind & Hdrop & Hs & H0 & Hpos)
    %extract_balanced_block_Some.
  exists o, c, (take start text), post.
  assert (length (take start text) = start) as Hlen.
  { destruct (find_Some _ _ _ Hfind) as (pre & post0 & -> & <-).
    by rewrite take_app_length. }
  repeat split; try done.
  - by rewrite <-Hdrop, take_drop.
  - by rewrite Hlen.
  - by apply find_single_not_before.
  - by rewrite Hs.
  - rewrite Hs. change (o :: p ++ [c]) with ((o :: p) ++ [c]). apply last_snoc.
  - intros q Hpre Hne Hneq. rewrite Hs in Hpre, Hneq.
    destruct q as [|a q]; [done|].
    pose proof (prefix_cons_inv_1 _ _ _ _ Hpre) as ->.
    apply prefix_cons_inv_2, prefix_snoc_inv in Hpre as [->|Hpre]; [done|].
    specialize (Hpos q Hpre). lia.
Qed.

Lemma extract_balanced_block_invariant_witness :
  ∃ o c pre post,
    [LBRACKET] = [o] ∧ [RBRACKET] = [c]
    ∧ lit "see [1, [2], ']'] and ]" = pre ++ lit "[1, [2], ']']" ++ post
    ∧ find (lit "see [1, [2], ']'] and ]") [LBRACKET] = Some (length pre) ∧ (o ∉ pre)
    ∧ head (lit "[1, [2], ']']") = Some o ∧ last (lit "[1, [2], ']']") = Some c
    ∧ bracket_depth [LBRACKET] [RBRACKET] (lit "[1, [2], ']']") = 0%Z
    ∧ ∀ p, p `prefix_of` lit "[1, [2], ']']" → p ≠ [] → p ≠ lit "[1, [2], ']']" →
           (0 < bracket_depth [LBRACKET] [RBRACKET] p)%Z.
Proof.
  apply (extract_balanced_block_invariant (lit "see [1, [2], ']'] and ]")).
  vm_compute. reflexivity.
Defined.

(** C8. Extractor negative: [extract_balanced_block] is a total function
    (it returns on every text, without an exception), and on a text that
    has an opening bracket but in which the depth is never back at zero it
    returns [None], never a truncated or unbalanced piece of the text. *)
Theorem extract_balanced_block_unbalanced (text open_ch close_ch : str) :
  unbalanced text open_ch close_ch →
  extract_balanced_block text open_ch close_ch = None.
Proof.
  intros (start & Hfind & Hnever).
  destruct (extract_balanced_block text open_ch close_ch) as [s|] eqn:He; [|done].
  apply extract_balanced_block_Some in He
    as (o & c & start' & p & post & -> & Hq & -> & Hfind' & Hdrop & Hs & H0 & _).
  assert (start' = start) as -> by congruence.
  destruct (Hnever s); [by exists post | by rewrite Hs | done].
Qed.

Lemma extract_balanced_block_unbalanced_witness :
  unbalanced (lit "x [']'") [LBRACKET] [RBRACKET]
  ∧ extract_balanced_block (lit "x [']'") [LBRACKET] [RBRACKET] = None.
Proof.
  assert (unbalanced (lit "x [']'") [LBRACKET] [RBRACKET]) as H.
  { exists 2%nat. split; [reflexivity|].
    intros p [k Hk] Hne. vm_compute in Hk.
    repeat (destruct p as [|? p];
            [first [done | simplify_eq; vm_compute; done] | simplify_eq]). }
  split; [exact H|].
  apply (extract_balanced_block_unbalanced (lit "x [']'") [LBRACKET] [RBRACKET] H).
Defined.

(** ** Scanning balanced text *)

Section ScanBalanced.
Context (o c : char).
Hypothesis (Ho : is_quote o = false) (Hc : is_quote c = false) (Hoc : o ≠ c).

Local Abbreviation loop := (scan_loop [o] [c]).

Lemma scan_quoted q b :
  quoted q b → ∀ d i rest,
  loop (ScanState d true false (Some q)) i (b ++ rest)
  = loop (ScanState d true false (Some q)) (i + length b) rest.
Proof.
  induction 1 as [|ch s Hq Hb _ IH|ch s _ IH]; intros d i rest.
  - cbn. by rewrite Nat.add_0_r.
  - cbn [app scan_loop]. unfold scan_step. cbn [in_str esc quote].
    rewrite (proj2 (N.eqb_neq _ _) Hb), bool_decide_eq_false_2 by congruence.
    rewrite IH. f_equal. cbn. lia.
  - cbn [app scan_loop]. unfold scan_step. cbn [in_str esc quote depth].
    rewrite N.eqb_refl. cbn [scan_loop]. unfold scan_step.
    cbn [in_str esc quote depth]. rewrite IH. f_equal. cbn. lia.
Qed.

Lemma quote_not_backslash q : is_quote q = true → (q =? BACKSLASH) = false.
Proof.
  unfold is_quote. intros [->%N.eqb_eq| ->%N.eqb_eq]%orb_true_iff; done.
Qed.

(** Balanced text read at depth one or more leaves the depth as it was
    and the scan outside any literal. *)
Lemma scan_balanced x :
  balanced o c x → ∀ d q i rest, (1 ≤ d)%Z →
  ∃ q', loop (ScanState d false false q) i (x ++ rest)
        = loop (ScanState d false false q') (i + length x) rest.
Proof.
  induction 1 as [|ch s Hq Hno Hnc _ IH|q0 b s Hq Hb _ IH|b s _ IHb _ IHs];
    intros d q i rest Hd.
  - exists q. cbn. by rewrite Nat.add_0_r.
  - destruct (IH d q (S i) rest Hd) as [q' IH'].
    exists q'. cbn [app scan_loop]. unfold scan_step. cbn [in_str].
    fold (is_quote ch). rewrite Hq, !ch_eq_single.
    rewrite (proj2 (N.eqb_neq _ _) Hno), (proj2 (N.eqb_neq _ _) Hnc).
    rewrite IH'. f_equal. cbn. lia.
  - destruct (IH d (Some q0) (S (S i + length b)) rest Hd) as [q' IH'].
    exists q'. cbn [app scan_loop]. unfold scan_step at 1. cbn [in_str].
    fold (is_quote q0). rewrite Hq. cbn [esc depth].
    rewrite <-app_assoc, scan_quoted by done.
    cbn [app scan_loop]. unfold scan_step at 1. cbn [in_str esc quote depth].
    rewrite quote_not_backslash, bool_decide_eq_true_2 by done.
    rewrite IH'. f_equal. cbn [length]. rewrite length_app. cbn [length]. lia.
  - destruct (IHb (d + 1)%Z q (S i) (c :: s ++ rest)) as [q1 IH1]; [lia|].
    destruct (IHs d q1 (S (S i + length b)) rest Hd) as [q' IH'].
    exists q'. cbn [app scan_loop]. unfold scan_step at 1. cbn [in_str].
    fold (is_quote o). rewrite Ho, ch_eq_single, N.eqb_refl. cbn [esc quote depth].
    rewrite <-app_assoc. cbn [app]. rewrite IH1.
    cbn [scan_loop]. unfold scan_step at 1. cbn [in_str esc quote depth].
    fold (is_quote c). rewrite Hc, !ch_eq_single, N.eqb_refl.
    rewrite (proj2 (N.eqb_neq c o)) by done.
    rewrite (proj2 (Z.eqb_neq _ _)) by lia.
    replace (d + 1 - 1)%Z with d by lia.
    rewrite IH'. f_equal. cbn [length]. rewrite length_app. cbn [length]. lia.
Qed.

(** A scan from the opening bracket of a balanced block returns at its
    closing bracket. *)
Lemma scan_block s i post :
  block o c s → loop scan_init i (s ++ post) = Some (i + length s - 1)%nat.
Proof.
  intros (b & -> & Hb). cbn [app scan_loop]. unfold scan_step at 1.
  cbn [in_str scan_init]. fold (is_quote o).
  rewrite Ho, ch_eq_single, N.eqb_refl. cbn [esc quote depth].
  rewrite <-app_assoc. cbn [app].
  change (depth scan_init + 1)%Z with 1%Z.
  change (esc scan_init) with false. change (quote scan_init) with (@None N).
  destruct (scan_balanced b Hb 1 None (S i) (c :: post)) as [q' ->]; [lia|].
  cbn [scan_loop]. unfold scan_step. cbn [in_str esc quote depth].
  fold (is_quote c). rewrite Hc, !ch_eq_single, N.eqb_refl.
  rewrite (proj2 (N.eqb_neq c o)) by done.
  cbn [Z.sub Z.add Z.opp Z.pos_sub Z.eqb]. f_equal.
  cbn [length]. rewrite length_app. cbn [length]. lia.
Qed.

Lemma extract_block pre v post :
  o ∉ pre → block o c v →
  extract_balanced_block (pre ++ v ++ post) [o] [c] = Some v.
Proof.
  intros Hpre Hv. unfold extract_balanced_block.
  pose proof Hv as (b & Hvb & _).
  assert (find (pre ++ v ++ post) [o] = Some (length pre)) as ->.
  { rewrite Hvb. cbn [app]. by apply find_single_first. }
  rewrite drop_app_length, scan_block by done.
  f_equal. unfold slice. rewrite drop_app_length.
  replace (length pre + length v - 1 + 1 - length pre)%nat with (length v).
  - apply take_app_length.
  - rewrite Hvb. cbn. lia.
Qed.
End ScanBalanced.

(** ** JSON text is balanced *)

Lemma is_plain_iff ch :
  is_plain ch = true ↔ ch ≠ 34 ∧ ch ≠ 39 ∧ ch ≠ 91 ∧ ch ≠ 93 ∧ ch ≠ 123 ∧ ch ≠ 125.
Proof.
  unfold is_plain, is_quote, DQUOTE, SQUOTE, LBRACKET, RBRACKET, LBRACE, RBRACE.
  rewrite !andb_true_iff, !negb_true_iff, orb_false_iff, !N.eqb_neq. tauto.
Qed.

Lemma bracket_pair_sane o c :
  bracket_pair o c → is_quote o = false ∧ is_quote c = false ∧ o ≠ c.
Proof. by intros [[-> ->]|[-> ->]]. Qed.

Section JsonBalanced.
Context (o c : char) (Hpair : bracket_pair o c).

Lemma balanced_app x y : balanced o c x → balanced o c y → balanced o c (x ++ y).
Proof.
  intros Hx Hy. induction Hx as [|ch s ???? IH|q b s ??? IH|b s ? _ ? IH]; cbn [app].
  - done.
  - by apply balanced_plain.
  - rewrite <-app_assoc. cbn [app]. by apply balanced_quoted.
  - rewrite <-app_assoc. cbn [app]. by apply balanced_nested.
Qed.

Lemma balanced_plain_all x :
  Forall (λ ch, is_plain ch = true) x → balanced o c x.
Proof.
  induction 1 as [|ch x Hch _ IH]; [apply balanced_nil|].
  apply is_plain_iff in Hch.
  apply balanced_plain; [| | |done];
    pose proof Hpair as [[-> ->]|[-> ->]];
    unfold is_quote, DQUOTE, SQUOTE, LBRACKET, RBRACKET, LBRACE, RBRACE;
    rewrite ?orb_false_iff, ?N.eqb_neq; lia.
Qed.

Lemma balanced_ws w : json_ws w → balanced o c w.
Proof.
  intros Hw. apply balanced_plain_all. eapply Forall_impl; [exact Hw|].
  intros ch. unfold is_json_ws. rewrite !orb_true_iff, !N.eqb_eq, is_plain_iff. lia.
Qed.

Lemma digits_plain ds :
  Forall (λ ch, is_digit ch = true) ds → Forall (λ ch, is_plain ch = true) ds.
Proof.
  intros H. eapply Forall_impl; [exact H|]. intros ch. unfold is_digit.
  rewrite andb_true_iff, !N.leb_le, is_plain_iff. lia.
Qed.

Lemma balanced_number s : json_number s → balanced o c s.
Proof.
  intros (sg & i & f & e & -> & Hsg & Hi & Hf & He).
  apply balanced_plain_all. repeat apply Forall_app_2.
  - by destruct Hsg as [-> | ->]; repeat constructor.
  - destruct Hi as [->|(d & ds & -> & Hd & Hds)]; [by repeat constructor|].
    constructor; [apply is_plain_iff; lia | by apply digits_plain].
  - destruct Hf as [->|(ds & -> & _ & Hds)]; [constructor|].
    constructor; [done | by apply digits_plain].
  - destruct He as [->|(ex & sg' & ds & -> & Hex & Hsg' & _ & Hds)]; [constructor|].
    constructor; [by destruct Hex as [-> | ->]|].
    apply Forall_app_2; [|by apply digits_plain].
    by destruct Hsg' as [-> |[-> | ->]]; repeat constructor.
Qed.

Lemma balanced_scalar s : json_scalar s → balanced o c s.
Proof.
  intros [->|[->|[->|Hn]]]; [| | |by apply balanced_number];
    apply balanced_plain_all; by repeat constructor.
Qed.

Lemma json_chars_quoted k : json_chars k → quoted DQUOTE k.
Proof.
  assert (∀ h, is_hex h = true → h ≠ DQUOTE ∧ h ≠ BACKSLASH) as Hhex.
  { intros h. unfold is_hex, is_digit, DQUOTE, BACKSLASH.
    rewrite !orb_true_iff, !andb_true_iff, !N.leb_le. lia. }
  induction 1 as [|ch s ??? _ IH|e s _ _ IH|h1 h2 h3 h4 s H1 H2 H3 H4 _ IH].
  - constructor.
  - by apply quoted_plain.
  - by apply quoted_escape.
  - apply quoted_escape.
    apply Hhex in H1 as [??], H2 as [??], H3 as [??], H4 as [??].
    by repeat apply quoted_plain.
Qed.

Lemma balanced_string k : json_chars k → balanced o c (DQUOTE :: k ++ [DQUOTE]).
Proof.
  intros Hk. apply balanced_quoted; [done| by apply json_chars_quoted | constructor].
Qed.

(** A bracketed value around balanced text: nested when the brackets
    are of the scanned kind, plain characters otherwise. *)
Lemma balanced_bracketed o' c' x :
  bracket_pair o' c' → balanced o c x → balanced o c (o' :: x ++ [c']).
Proof.
  intros Hp' Hx.
  pose proof Hpair as Hp.
  destruct Hp as [[Ho Hc]|[Ho Hc]], Hp' as [[-> ->]|[-> ->]].
  - rewrite <-Ho, <-Hc. apply balanced_nested; [done | constructor].
  - apply balanced_plain; [by rewrite ?Ho, ?Hc..|]. apply balanced_app; [done|].
    apply balanced_plain; [by rewrite ?Ho, ?Hc..|constructor].
  - apply balanced_plain; [by rewrite ?Ho, ?Hc..|]. apply balanced_app; [done|].
    apply balanced_plain; [by rewrite ?Ho, ?Hc..|constructor].
  - rewrite <-Ho, <-Hc. apply balanced_nested; [done | constructor].
Qed.

Lemma balanced_comma x : balanced o c x → balanced o c (COMMA :: x).
Proof.
  intros. apply balanced_app with (x := [COMMA]); [|done].
  apply balanced_plain_all. by repeat constructor.
Qed.

Lemma balanced_member w1 k w2 w3 v w4 :
  json_ws w1 → json_chars k → json_ws w2 → json_ws w3 → balanced o c v → json_ws w4 →
  balanced o c (w1 ++ DQUOTE :: k ++ DQUOTE :: w2 ++ COLON :: w3 ++ v ++ w4).
Proof.
  intros H1 Hk H2 H3 Hv H4.
  apply balanced_app; [by apply balanced_ws|].
  apply balanced_quoted; [done | by apply json_chars_quoted |].
  apply balanced_app; [by apply balanced_ws|].
  apply balanced_app with (x := [COLON]);
    [apply balanced_plain_all; by repeat constructor|].
  repeat apply balanced_app; first [done | by apply balanced_ws].
Qed.

Lemma json_balanced :
  (∀ v, json_value v → balanced o c v)
  ∧ (∀ a, json_array a → balanced o c a)
  ∧ (∀ ob, json_object ob → balanced o c ob)
  ∧ (∀ els, json_elements els → balanced o c els)
  ∧ (∀ ms, json_members ms → balanced o c ms).
Proof.
  apply json_mutind.
  - apply balanced_scalar.
  - intros. by apply balanced_string.
  - done.
  - done.
  - intros. apply balanced_bracketed; [by left | by apply balanced_ws].
  - intros. apply balanced_bracketed; [by left | done].
  - intros. apply balanced_bracketed; [by right | by apply balanced_ws].
  - intros. apply balanced_bracketed; [by right | done].
  - intros. repeat apply balanced_app; first [done | by apply balanced_ws].
  - intros. repeat apply balanced_app;
      first [done | by apply balanced_ws | by apply balanced_comma].
  - intros. by apply balanced_member.
  - intros w1 k w2 w3 v w4 ms ????? Hv ?? Hms.
    replace (w1 ++ DQUOTE :: k ++ DQUOTE :: w2 ++ COLON :: w3 ++ v ++ w4 ++ COMMA :: ms)
      with ((w1 ++ DQUOTE :: k ++ DQUOTE :: w2 ++ COLON :: w3 ++ v ++ w4) ++ COMMA :: ms).
    + apply balanced_app; [by apply balanced_member | by apply balanced_comma].
    + repeat first [rewrite <-app_assoc | progress cbn [app] | progress f_equal].
Qed.
End JsonBalanced.

Lemma json_array_block a : json_array a → block LBRACKET RBRACKET a.
Proof.
  assert (bracket_pair LBRACKET RBRACKET) as Hp by by left.
  destruct (json_balanced _ _ Hp) as (_ & _ & _ & He & _).
  intros [w Hw|els Hels].
  - exists w. split; [done | by apply balanced_ws].
  - exists els. split; [done | by apply He].
Qed.

Lemma json_object_block ob : json_object ob → block LBRACE RBRACE ob.
Proof.
  assert (bracket_pair LBRACE RBRACE) as Hp by by right.
  destruct (json_balanced _ _ Hp) as (_ & _ & _ & _ & Hm).
  intros [w Hw|ms Hms].
  - exists w. split; [done | by apply balanced_ws].
  - exists ms. split; [done | by apply Hm].
Qed.

(** ** extract_first_json *)

Lemma block_nonempty o c v : block o c v → ∃ a s, v = a :: s.
Proof. intros (b & -> & _). eauto. Qed.

(** The two attempts on the sanitized text (fences stripped,
    left-trimmed): a well-formed array with no opening bracket before it
    is returned; a well-formed object with no opening brace before it is
    returned when the array attempt finds no block. *)
Lemma extract_first_json_sanitized (text pre v post : str) :
  lstrip (strip_code_fences text) = pre ++ v ++ post →
  (json_array v ∧ LBRACKET ∉ pre)
  ∨ (json_object v ∧ (LBRACE ∉ pre)
     ∧ extract_balanced_block (pre ++ v ++ post) [LBRACKET] [RBRACKET] = None) →
  extract_first_json text = Some v.
Proof.
  intros Hclean Hv. unfold extract_first_json. rewrite Hclean.
  destruct Hv as [[Ha Hpre]|(Hob & Hpre & Hnone)].
  - apply json_array_block in Ha.
    rewrite (extract_block LBRACKET RBRACKET) by done.
    by destruct (block_nonempty _ _ _ Ha) as (a & s & ->).
  - apply json_object_block in Hob.
    rewrite Hnone. cbn [py_or]. by apply extract_block.
Qed.

Lemma json_digit d : 49 ≤ d ≤ 57 → json_value [d].
Proof.
  intros Hd. apply jv_scalar. right. right. right.
  exists [], [d], [], []. repeat split; [by left | | by left | by left].
  right. exists d, []. split; [done | split; [lia | constructor]].
Qed.

Lemma fenced_reply_array : json_array (jlit "[{'t': ']'}, 2]").
Proof.
  change (json_array (LBRACKET :: ([] ++ jlit "{'t': ']'}" ++ [] ++ COMMA :: lit " 2")
                        ++ [RBRACKET])).
  apply ja_elements, je_cons; [constructor| |constructor|].
  - apply jv_object.
    change (json_object (LBRACE :: ([] ++ DQUOTE :: lit "t" ++ DQUOTE :: [] ++ COLON
                                      :: [32] ++ jlit "']'" ++ []) ++ [RBRACE])).
    apply jo_members, jm_last; try by repeat constructor.
    change (json_value (DQUOTE :: [93] ++ [DQUOTE])).
    apply jv_string. by repeat constructor.
  - change (json_elements ([32] ++ [50] ++ [])).
    apply je_last; [by repeat constructor | by apply json_digit | constructor].
Qed.

Example fenced_reply_extracted :
  extract_first_json fenced_reply = Some (jlit "[{'t': ']'}, 2]").
Proof.
  apply (extract_first_json_sanitized fenced_reply [] (jlit "[{'t': ']'}, 2]") []).
  - vm_compute. reflexivity.
  - left. split; [exact fenced_reply_array | apply not_elem_of_nil].
Qed.

Lemma object_with_array_json : json_object object_with_array.
Proof.
  change (json_object (LBRACE :: ([] ++ DQUOTE :: lit "a" ++ DQUOTE :: [] ++ COLON
                                    :: [] ++ lit "[1]" ++ []) ++ [RBRACE])).
  apply jo_members, jm_last; try by repeat constructor.
  apply jv_array.
  change (json_array (LBRACKET :: ([] ++ [49] ++ []) ++ [RBRACKET])).
  apply ja_elements, je_last; [constructor | by apply json_digit | constructor].
Qed.

(** An object that holds an array: the text is one well-formed JSON
    object with nothing around it; the array attempt comes first and
    returns the inner array, not the object.  The coercion of a bare
    object at lines 127-128 shows that such a response is meant to be
    taken whole; every section object the schema asks for has a [tags]
    array and so meets this. *)
Lemma extract_first_json_object_with_array :
  json_object object_with_array
  ∧ extract_first_json object_with_array = Some (lit "[1]")
  ∧ extract_first_json object_with_array ≠ Some object_with_array.
Proof.
  split; [exact object_with_array_json|]. split; [by vm_compute|].
  vm_compute. discriminate.
Qed.

(** ** The pipeline *)

Local Close Scope N_scope.

Section PipelineFacts.
Context (E : collaborators).

Lemma bind_Ok {A B} (m : M A) (f : A → M B) w a w' :
  m w = (Ok a, w') → (m ≫= f) w = f a w'.
Proof. unfold mbind, M_bind. by intros ->. Qed.

Lemma bind_Raise {A B} (m : M A) (f : A → M B) w e w' :
  m w = (Raise e, w') → (m ≫= f) w = (Raise e, w').
Proof. unfold mbind, M_bind. by intros ->. Qed.

(** One invocation of the model client posts one request, whatever
    comes back. *)
Lemma call_model_run (prompt : str) (fix_mode : bool) (w : world) :
  let sent := if fix_mode then fix_prompt prompt else prompt in
  let w' := World (requests w ++ [(fix_mode, sent)]) (insert_calls w)
                  (collection w) (clock_reads w) (stdout w) in
  call_model E prompt fix_mode w =
    match backend E (length (requests w)) sent with
    | HttpFailure => (Raise RequestError, w')
    | HttpBody body => (response_text body, w')
    end.
Proof.
  cbn zeta. unfold call_model, mbind, M_bind, post, lift.
  by destruct (backend E _ _).
Qed.

Lemma seqZ_cons_inv a len attempt more :
  attempt :: more = seqZ a len →
  (0 < len)%Z ∧ attempt = a ∧ more = seqZ (a + 1) (len - 1).
Proof.
  intros H. destruct (decide (0 < len)%Z) as [Hlen|Hlen].
  - rewrite seqZ_cons in H by done. by simplify_eq.
  - by rewrite seqZ_nil in H by lia.
Qed.

(** The repair loop from attempt [a] on: it only posts fix-mode
    requests, at most one per attempt left before the last, and touches
    neither the collection nor the clock. *)
Lemma repair_loop_run file n attempts : ∀ a raw (w : world),
  attempts = seqZ a (n + 1 - a) →
  ∃ fixes,
    let res := repair_loop E file n attempts raw w in
    requests res.2 = requests w ++ fixes
    ∧ Forall (λ r : bool * str, r.1 = true) fixes
    ∧ length fixes ≤ Z.to_nat (n - a)
    ∧ insert_calls res.2 = insert_calls w
    ∧ collection res.2 = collection w
    ∧ clock_reads res.2 = clock_reads w
    ∧ (∀ sections, res.1 = Ok (LoopBreak sections) →
         ∃ raw' v, json_loads E (candidate_of raw') = Some v
                   ∧ sections = as_sections v)
    ∧ (res.1 = Ok LoopEnd → (n < a)%Z)
    ∧ (never_parses E → json_loads E (candidate_of raw) = None → (a ≤ n)%Z →
         res.1 = Ok LoopReturn ∧ length fixes = Z.to_nat (n - a)).
Proof.
  induction attempts as [|attempt more IH]; intros a raw w Hseq.
  - exists []. cbn. rewrite app_nil_r. split_and!; try done; try lia.
    + intros _. destruct (decide (0 < n + 1 - a)%Z) as [Hlen|Hlen]; [|lia].
      by rewrite seqZ_cons in Hseq by done.
    + intros _ _ Ha. by rewrite seqZ_cons in Hseq by lia.
  - apply seqZ_cons_inv in Hseq as (Hlen & -> & Hmore).
    cbn [repair_loop].
    destruct (json_loads E (candidate_of raw)) as [v|] eqn:Hparse.
    { exists []. cbn. rewrite app_nil_r. split_and!; try done; try lia.
      intros sections [= <-]. eauto. }
    destruct (a <? n)%Z eqn:Hlt.
    + apply Z.ltb_lt in Hlt.
      set (w1 := World (requests w) (insert_calls w) (collection w) (clock_reads w)
                       (stdout w ++ [WarnRetry file (a + 1) n])).
      rewrite (bind_Ok _ _ w () w1) by done.
      pose proof (call_model_run (candidate_of raw) true w1) as Hcall.
      cbn zeta in Hcall.
      set (w2 := World (requests w1 ++ [(true, fix_prompt (candidate_of raw))])
                       (insert_calls w1) (collection w1) (clock_reads w1)
                       (stdout w1)) in *.
      destruct (backend E (length (requests w1)) (fix_prompt (candidate_of raw)))
        as [|body] eqn:Hback.
      { rewrite (bind_Raise _ _ w1 RequestError w2) by done.
        exists [(true, fix_prompt (candidate_of raw))]. cbn.
        split_and!; try done; try lia.
        - by repeat constructor.
        - intros Hnever. destruct (Hnever (length (requests w))
            (fix_prompt (candidate_of raw))) as (? & ? & ? & _). change (requests w1) with (requests w) in Hback. congruence. }
      destruct (response_text body) as [raw'|e] eqn:Hresp.
      * rewrite (bind_Ok _ _ w1 raw' w2) by done.
        destruct (IH (a + 1)%Z raw' w2) as (fixes & Hreq & Hfix & Hlenf & Hins & Hcol
          & Hclock & Hbreak & Hend & Hnever).
        { rewrite Hmore. f_equal. lia. }
        exists ((true, fix_prompt (candidate_of raw)) :: fixes). cbn zeta.
        split_and!; try done.
        -- rewrite Hreq. cbn. by rewrite <-app_assoc.
        -- by constructor.
        -- cbn. lia.
        -- intros ?%Hend. lia.
        -- intros Hall _ _.
           destruct (Hall (length (requests w)) (fix_prompt (candidate_of raw)))
             as (body' & raw'' & Hb & Hr & Hp).
           change (requests w1) with (requests w) in Hback.
           destruct Hnever as [Hres Hexact]; [done|congruence|lia|].
           split; [exact Hres|]. cbn. lia.
      * rewrite (bind_Raise _ _ w1 e w2) by done.
        exists [(true, fix_prompt (candidate_of raw))]. cbn.
        split_and!; try done; try lia.
        -- by repeat constructor.
        -- intros Hnever. destruct (Hnever (length (requests w))
             (fix_prompt (candidate_of raw))) as (? & ? & ? & ? & _).
           change (requests w1) with (requests w) in Hback. congruence.
    + apply Z.ltb_ge in Hlt. exists []. cbn. rewrite app_nil_r.
      split_and!; try done; try lia.
      intros _ _ _. split; [done|lia].
Qed.
End PipelineFacts.

(** ** The record materializer *)

Section Materializer.
Context (E : collaborators) (file : str).

Lemma docs_from_cons k d ds :
  docs_from E file k (d :: ds) = doc_of E file k d :: docs_from E file (S k) ds.
Proof.
  unfold docs_from. rewrite imap_cons, Nat.add_0_r. f_equal.
  apply imap_ext. intros i x _. cbn. f_equal. lia.
Qed.

Lemma length_docs_from k ds : length (docs_from E file k ds) = length ds.
Proof. unfold docs_from. apply length_imap. Qed.

Lemma stored_nil w : stored w [] = w.
Proof. destruct w. unfold stored. cbn. by rewrite !app_nil_r, Nat.add_0_r. Qed.

Lemma build_record_dict d w :
  build_record E file (PDict d) w =
    (Ok (doc_of E file (clock_reads w) d),
     World (requests w) (insert_calls w) (collection w) (S (clock_reads w)) (stdout w)).
Proof. done. Qed.

Lemma build_record_other x w :
  (∀ d, x ≠ PDict d) → build_record E file x w = (Raise AttributeError, w).
Proof. intros Hx. destruct x; try done. by destruct (Hx d). Qed.

(** One turn of the insert loop on an object. *)
Lemma insert_sections_dict d more w :
  let doc := doc_of E file (clock_reads w) d in
  insert_sections E file (PDict d :: more) w =
    if insert_accepts E (collection w) doc
    then insert_sections E file more (stored w [doc])
    else (Raise InsertError,
          World (requests w) (insert_calls w ++ [doc]) (collection w)
                (S (clock_reads w)) (stdout w)).
Proof.
  cbn zeta. cbn [insert_sections].
  rewrite (bind_Ok _ _ _ _ _ (build_record_dict d w)).
  unfold mbind, M_bind, insert_one, stored. cbn.
  destruct (insert_accepts E (collection w) _); [|done].
  by rewrite Nat.add_1_r.
Qed.

Lemma stored_cons w doc docs : stored (stored w [doc]) docs = stored w (doc :: docs).
Proof.
  unfold stored. cbn. rewrite <-!app_assoc. cbn. f_equal. lia.
Qed.

(** Objects whose documents are accepted go into the collection in
    order, and the loop goes on with what follows them. *)
Lemma insert_sections_prefix ds rest : ∀ w,
  accepts_all E file w ds →
  insert_sections E file ((PDict <$> ds) ++ rest) w =
    insert_sections E file rest (stored w (docs_from E file (clock_reads w) ds)).
Proof.
  induction ds as [|d ds IH]; intros w Hacc.
  - by rewrite stored_nil.
  - cbn [fmap list_fmap app]. rewrite insert_sections_dict. cbn zeta.
    pose proof (Hacc 0 d eq_refl) as H0. cbn in H0.
    rewrite app_nil_r, Nat.add_0_r in H0. rewrite H0.
    rewrite IH.
    + rewrite stored_cons, docs_from_cons. cbn [stored clock_reads length].
      by rewrite Nat.add_1_r.
    + intros i d' Hi. specialize (Hacc (S i) d' Hi).
      cbn [take] in Hacc. rewrite docs_from_cons in Hacc.
      cbn [stored collection clock_reads length].
      rewrite Nat.add_1_r, <-app_assoc. cbn [app].
      by replace (S (clock_reads w) + i) with (clock_reads w + S i) by lia.
Qed.

Lemma dict_or_not (x : pyval) : (∃ d, x = PDict d) ∨ (∀ d, x ≠ PDict d).
Proof. destruct x; try by right. left. eauto. Qed.

(** Every run of the insert loop: the objects at the front whose
    documents were accepted are in the collection; the loop ended
    there, or raised on a section that is not an object, or raised on a
    rejected document. *)
Lemma insert_sections_run sections : ∀ w,
  ∃ ds rest, sections = (PDict <$> ds) ++ rest ∧
    let docs := docs_from E file (clock_reads w) ds in
    (rest = [] ∧ insert_sections E file sections w = (Ok (), stored w docs))
    ∨ (∃ x post, rest = x :: post ∧ (∀ d, x ≠ PDict d)
         ∧ insert_sections E file sections w = (Raise AttributeError, stored w docs))
    ∨ (∃ d post, rest = PDict d :: post
         ∧ (insert_sections E file sections w).1 = Raise InsertError
         ∧ collection (insert_sections E file sections w).2 = collection w ++ docs
         ∧ length (insert_calls (insert_sections E file sections w).2)
           = S (length (insert_calls w) + length ds)).
Proof.
  induction sections as [|x more IH]; intros w.
  - exists [], []. split; [done|]. left. by rewrite stored_nil.
  - destruct (dict_or_not x) as [[d ->]|Hx'].
    + destruct (insert_accepts E (collection w) (doc_of E file (clock_reads w) d))
        eqn:Hacc.
      * destruct (IH (stored w [doc_of E file (clock_reads w) d]))
          as (ds & rest & -> & Hrun).
        exists (d :: ds), rest. split; [done|]. cbn zeta in *.
        rewrite insert_sections_dict. cbn zeta. rewrite Hacc.
        cbn [stored clock_reads collection insert_calls length] in Hrun.
        replace (clock_reads w + 1) with (S (clock_reads w)) in Hrun by lia.
        rewrite docs_from_cons.
        rewrite stored_cons in Hrun.
        destruct Hrun as [[-> Hrun]|[(y & post & -> & Hy & Hrun)|(d' & post & -> & Hr
          & Hcol & Hcalls)]].
        -- left. done.
        -- right. left. eauto.
        -- right. right. exists d', post. split_and!; try done.
           ++ rewrite Hcol. by rewrite <-app_assoc.
           ++ rewrite Hcalls, length_app. cbn. lia.
      * exists [], (PDict d :: more). split; [done|]. right. right.
        exists d, more. rewrite insert_sections_dict. cbn zeta. rewrite Hacc.
        cbn. rewrite app_nil_r, length_app. cbn. split_and!; first [done | lia].
    + exists [], (x :: more). split; [done|]. right. left.
      exists x, more. split; [done|].
      split; [done|]. cbn [insert_sections].
      rewrite (bind_Raise _ _ _ _ _ (build_record_other x w Hx')).
      by rewrite stored_nil.
Qed.
End Materializer.

Example run_two_sections :
  let res := process_text (E_two_sections (λ _ _, true)) (lit "x") (lit "note.txt") 1 world0 in
  res.1 = Ok Done ∧ length (collection res.2) = 2 ∧ length (requests res.2) = 1.
Proof. vm_compute. done. Qed.

Example run_bare_object :
  let res := process_text E_bare_object (lit "x") (lit "note.txt") 1 world0 in
  res.1 = Ok Done
  ∧ collection res.2 = [doc_of E_bare_object (lit "note.txt") 0 bare_object].
Proof. vm_compute. done. Qed.

(** Scenario 3 as the code runs it: the array attempt comes first and
    finds the empty [tags] array inside the object, which parses as an
    empty list of sections; nothing is inserted and the run reports zero
    sections. *)
Example run_scenario3 :
  let res := process_text E_scenario3 (lit "x") (lit "note.txt") 1 world0 in
  candidate_of scenario3_json = lit "[]"
  ∧ res.1 = Ok Done
  ∧ collection res.2 = []
  ∧ stdout res.2 = [InfoProcessed (lit "note.txt") 0].
Proof. vm_compute. done. Qed.

(** With a non-empty [tags] array the candidate is that array of strings:
    the parse succeeds, and materializing its first element raises. *)
Example run_tagged_object :
  let res := process_text E_tagged_object (lit "x") (lit "note.txt") 1 world0 in
  candidate_of tagged_object_json = jlit "['a']"
  ∧ res.1 = Raise AttributeError
  ∧ insert_calls res.2 = [].
Proof. vm_compute. done. Qed.

(** ** The claims about process_text *)

Section PipelineClaims.
Context (E : collaborators).

Lemma insert_sections_requests file sections : ∀ w,
  requests (insert_sections E file sections w).2 = requests w.
Proof.
  induction sections as [|x more IH]; intros w; [done|].
  destruct (dict_or_not x) as [[d ->]|Hx].
  - rewrite insert_sections_dict. cbn zeta.
    destruct (insert_accepts E _ _); [by rewrite IH | done].
  - cbn [insert_sections].
    by rewrite (bind_Raise _ _ _ _ _ (build_record_other E file x w Hx)).
Qed.

Lemma insert_sections_calls file sections : ∀ w,
  ∃ later, insert_calls (insert_sections E file sections w).2 = insert_calls w ++ later.
Proof.
  induction sections as [|x more IH]; intros w.
  - exists []. by rewrite app_nil_r.
  - destruct (dict_or_not x) as [[d ->]|Hx].
    + rewrite insert_sections_dict. cbn zeta.
      destruct (insert_accepts E _ _); [|by eexists].
      destruct (IH (stored w [doc_of E file (clock_reads w) d])) as [later ->].
      eexists. cbn. by rewrite <-app_assoc.
    + cbn [insert_sections].
      rewrite (bind_Raise _ _ _ _ _ (build_record_other E file x w Hx)).
      exists []. by rewrite app_nil_r.
Qed.

(** Lines 139-150 after a [break]. *)
Lemma after_loop_break file sections w :
  after_loop E file (LoopBreak sections) w =
    match insert_sections E file sections w with
    | (Ok _, w') =>
        (Ok Done, World (requests w') (insert_calls w') (collection w') (clock_reads w')
                        (stdout w' ++ [InfoProcessed file (length sections)]))
    | (Raise e, w') => (Raise e, w')
    end.
Proof.
  unfold after_loop, mbind, M_bind.
  by destruct (insert_sections E file sections w) as [[[]|e] w'].
Qed.

Lemma validate_and_store_parsed file n attempt more raw v w :
  json_loads E (candidate_of raw) = Some v →
  validate_and_store E file n (attempt :: more) raw w
  = after_loop E file (LoopBreak (as_sections v)) w.
Proof.
  intros H. unfold validate_and_store. cbn [repair_loop]. by rewrite H.
Qed.



(** C5. Array coercion: when the candidate taken from a response parses
    as a bare object, the sections are that one object: [insert_one] is
    called exactly once, with the document of the object; the document
    is in the collection and the run reports one section whenever the
    collection accepts it. *)
Theorem bare_object_one_record (file : str) (n attempt : Z) (more : list Z)
    (raw : str) (d : gmap str pyval) (w : world) :
  json_loads E (candidate_of raw) = Some (PDict d) →
  let res := validate_and_store E file n (attempt :: more) raw w in
  let doc := doc_of E file (clock_reads w) d in
  insert_calls res.2 = insert_calls w ++ [doc]
  ∧ (insert_accepts E (collection w) doc = true →
       res.1 = Ok Done
       ∧ collection res.2 = collection w ++ [doc]
       ∧ stdout res.2 = stdout w ++ [InfoProcessed file 1])
  ∧ (insert_accepts E (collection w) doc = false →
       res.1 = Raise InsertError ∧ collection res.2 = collection w).
Proof.
  intros Hparse. cbn zeta.
  rewrite (validate_and_store_parsed _ _ _ _ _ _ _ Hparse), after_loop_break.
  cbn [as_sections]. rewrite insert_sections_dict. cbn zeta.
  destruct (insert_accepts E (collection w) _); cbn; split_and!; done.
Qed.

(** C9. A candidate that parses as an array whose first element that is
    not an object comes after the objects [ds]: [process_text] raises
    on that element, after the documents of [ds] went into the
    collection, fewer than the array has elements. *)
Theorem ill_shaped_array_prefix (file : str) (n attempt : Z) (more : list Z)
    (raw : str) (ds : list (gmap str pyval)) (x : pyval) (post : list pyval)
    (w : world) :
  json_loads E (candidate_of raw) = Some (PList ((PDict <$> ds) ++ x :: post)) →
  (∀ d, x ≠ PDict d) →
  accepts_all E file w ds →
  let res := validate_and_store E file n (attempt :: more) raw w in
  res.1 = Raise AttributeError
  ∧ collection res.2 = collection w ++ docs_from E file (clock_reads w) ds
  ∧ length (docs_from E file (clock_reads w) ds) = length ds
  ∧ length ds < length ((PDict <$> ds) ++ x :: post).
Proof.
  intros Hparse Hx Hacc. cbn zeta.
  rewrite (validate_and_store_parsed _ _ _ _ _ _ _ Hparse), after_loop_break.
  cbn [as_sections]. rewrite insert_sections_prefix by done.
  cbn [insert_sections].
  rewrite (bind_Raise _ _ _ _ _ (build_record_other E file x _ Hx)).
  split_and!; try done.
  - apply length_docs_from.
  - rewrite length_app, length_fmap. cbn. lia.
Qed.

(** C2 (amended). A rejected insert ends the run: when the candidate
    parses as the objects [ds], whose documents the collection
    accepts, followed by an object whose document it rejects,
    [process_text] raises the storage error; [insert_one] was called
    for [ds] and for the rejected document and for nothing after it,
    and the documents of [ds] stay in the collection. *)
Theorem insert_failure_stops (file : str) (n attempt : Z) (more : list Z)
    (raw : str) (ds : list (gmap str pyval)) (d : gmap str pyval)
    (post : list pyval) (w : world) :
  json_loads E (candidate_of raw)
    = Some (PList ((PDict <$> ds) ++ PDict d :: post)) →
  accepts_all E file w ds →
  insert_accepts E (collection w ++ docs_from E file (clock_reads w) ds)
                   (doc_of E file (clock_reads w + length ds) d) = false →
  let res := validate_and_store E file n (attempt :: more) raw w in
  res.1 = Raise InsertError
  ∧ insert_calls res.2
    = insert_calls w ++ docs_from E file (clock_reads w) ds
      ++ [doc_of E file (clock_reads w + length ds) d]
  ∧ collection res.2 = collection w ++ docs_from E file (clock_reads w) ds.
Proof.
  intros Hparse Hacc Hrej. cbn zeta.
  rewrite (validate_and_store_parsed _ _ _ _ _ _ _ Hparse), after_loop_break.
  cbn [as_sections]. rewrite insert_sections_prefix by done.
  rewrite insert_sections_dict. cbn zeta.
  cbn [stored collection clock_reads]. rewrite length_docs_from, Hrej.
  cbn. by rewrite <-app_assoc.
Qed.

(** C6. Defaulting: the document built for a section object has the
    empty list for a missing [tags] (not [None], and the field is
    there) and the empty string for a missing [title], [summary] or
    [content]; a field that is present is copied.  It is the document
    [insert_one] is called with. *)
Theorem missing_fields_default (file : str) (d : gmap str pyval)
    (more : list pyval) (w : world) :
  ∃ doc later,
    insert_calls (insert_sections E file (PDict d :: more) w).2
    = insert_calls w ++ doc :: later
    ∧ filename doc = file
    ∧ tags doc = default (PList []) (d !! lit "tags")
    ∧ title doc = default (PStr []) (d !! lit "title")
    ∧ summary doc = default (PStr []) (d !! lit "summary")
    ∧ original doc = default (PStr []) (d !! lit "content")
    ∧ (d !! lit "tags" = None → tags doc = PList [])
    ∧ (d !! lit "title" = None → title doc = PStr [])
    ∧ (d !! lit "summary" = None → summary doc = PStr [])
    ∧ (d !! lit "content" = None → original doc = PStr []).
Proof.
  rewrite insert_sections_dict. cbn zeta.
  exists (doc_of E file (clock_reads w) d).
  assert (∃ later,
    insert_calls (if insert_accepts E (collection w) (doc_of E file (clock_reads w) d)
       then insert_sections E file more (stored w [doc_of E file (clock_reads w) d])
       else (Raise InsertError,
             World (requests w) (insert_calls w ++ [doc_of E file (clock_reads w) d])
                   (collection w) (S (clock_reads w)) (stdout w))).2
    = insert_calls w ++ doc_of E file (clock_reads w) d :: later) as [later Hlater].
  { destruct (insert_accepts E _ _); [|by exists []].
    destruct (insert_sections_calls file more
                (stored w [doc_of E file (clock_reads w) d])) as [later ->].
    exists later. cbn. by rewrite <-app_assoc. }
  exists later. split_and!; try done;
    intros Hmiss; unfold doc_of; cbn [tags title summary original]; by rewrite Hmiss.
Qed.
End PipelineClaims.

Section FailureAtomicity.
Context (E : collaborators).


End FailureAtomicity.

(** ** The claims at concrete runs *)




Lemma bare_object_one_record_witness :
  let res := validate_and_store E_bare_object (lit "note.txt") 1 [0; 1]%Z
               bare_object_json world0 in
  let doc := doc_of E_bare_object (lit "note.txt") 0 bare_object in
  insert_calls res.2 = [doc]
  ∧ (insert_accepts E_bare_object [] doc = true →
       res.1 = Ok Done
       ∧ collection res.2 = [doc]
       ∧ stdout res.2 = [InfoProcessed (lit "note.txt") 1])
  ∧ (insert_accepts E_bare_object [] doc = false →
       res.1 = Raise InsertError ∧ collection res.2 = []).
Proof.
  apply (bare_object_one_record E_bare_object (lit "note.txt") 1 0 [1%Z]
           bare_object_json bare_object world0).
  vm_compute. reflexivity.
Defined.

Lemma ill_shaped_array_prefix_witness :
  let res := validate_and_store E_ill_shaped (lit "note.txt") 1 [0; 1]%Z
               ill_shaped_json world0 in
  res.1 = Raise AttributeError
  ∧ collection res.2 = [] ++ docs_from E_ill_shaped (lit "note.txt") 0 [section_titled "A"]
  ∧ length (docs_from E_ill_shaped (lit "note.txt") 0 [section_titled "A"]) = 1
  ∧ 1 < length ((PDict <$> [section_titled "A"]) ++ PInt 5 :: []).
Proof.
  apply (ill_shaped_array_prefix E_ill_shaped (lit "note.txt") 1 0 [1%Z]
           ill_shaped_json [section_titled "A"] (PInt 5) [] world0).
  - vm_compute. reflexivity.
  - intros d. discriminate.
  - intros i d _. reflexivity.
Defined.

Lemma insert_failure_stops_witness :
  let E := E_two_sections (rejects_title "B") in
  let res := validate_and_store E (lit "note.txt") 1 [0; 1]%Z two_sections_json world0 in
  res.1 = Raise InsertError
  ∧ insert_calls res.2
    = [] ++ docs_from E (lit "note.txt") 0 [section_titled "A"]
      ++ [doc_of E (lit "note.txt") (0 + 1) (section_titled "B")]
  ∧ collection res.2 = [] ++ docs_from E (lit "note.txt") 0 [section_titled "A"].
Proof.
  apply (insert_failure_stops (E_two_sections (rejects_title "B")) (lit "note.txt") 1 0
           [1%Z] two_sections_json [section_titled "A"] (section_titled "B") [] world0).
  - vm_compute. reflexivity.
  - intros i d Hi. destruct i as [|i]; [|done].
    injection Hi as <-. vm_compute. reflexivity.
  - vm_compute. reflexivity.
Defined.

(** C2 as stated fails: the backend answers with two well-formed
    sections and the collection rejects only the first document.
    [process_text] raises the storage error, and [insert_one] is never
    called for the second section, which the collection would accept. *)
Lemma insert_failure_skips_rest :
  let E := E_two_sections (rejects_title "A") in
  let res := process_text E (lit "x") (lit "note.txt") 1 world0 in
  json_loads E (candidate_of two_sections_json)
    = Some (PList [PDict (section_titled "A"); PDict (section_titled "B")])
  ∧ insert_accepts E [] (doc_of E (lit "note.txt") 1 (section_titled "B")) = true
  ∧ res.1 = Raise InsertError
  ∧ insert_calls res.2 = [doc_of E (lit "note.txt") 0 (section_titled "A")]
  ∧ collection res.2 = [].
Proof. vm_compute. done. Qed.

(** Outside the failure exit a prefix can stay: the parse succeeds with
    two well-formed sections and the collection rejects the second
    document; one of the two sections is in the collection.  The same
    happens with an accepting collection when the second element of the
    parsed array is not an object. *)
Example partial_materialization :
  let E := E_two_sections (rejects_title "B") in
  let res := process_text E (lit "x") (lit "note.txt") 1 world0 in
  json_loads E (candidate_of two_sections_json)
    = Some (PList [PDict (section_titled "A"); PDict (section_titled "B")])
  ∧ res.1 = Raise InsertError
  ∧ collection res.2 = [doc_of E (lit "note.txt") 0 (section_titled "A")]
  ∧ length (collection res.2) ≠ 0
  ∧ length (collection res.2) ≠ 2
  ∧ (process_text E_ill_shaped (lit "x") (lit "note.txt") 1 world0).1
    = Raise AttributeError
  ∧ length (collection (process_text E_ill_shaped (lit "x") (lit "note.txt") 1 world0).2)
    = 1.
Proof. vm_compute. split_and!; done. Qed.

(** * Further properties *)

Local Open Scope N_scope.

(** ** Trimming *)

Lemma lstrip_idempotent s : lstrip (lstrip s) = lstrip s.
Proof.
  induction s as [|c s IH]; [done|]. cbn [lstrip].
  destruct (isspace c) eqn:Hc; [done|]. cbn [lstrip]. by rewrite Hc.
Qed.

Lemma lstrip_head c u s : lstrip s = c :: u → isspace c = false.
Proof.
  induction s as [|a s IH]; [done|]. cbn [lstrip].
  destruct (isspace a) eqn:Ha; [done|]. by intros [= <- _].
Qed.

Lemma rstrip_idempotent s : rstrip (rstrip s) = rstrip s.
Proof. unfold rstrip. by rewrite reverse_involutive, lstrip_idempotent. Qed.

Lemma lstrip_rstrip_lstrip s : lstrip (rstrip (lstrip s)) = rstrip (lstrip s).
Proof.
  destruct (rstrip (lstrip s)) as [|c u] eqn:Hr; [done|].
  pose proof (rstrip_prefix (lstrip s)) as [k Hk]. rewrite Hr in Hk.
  apply lstrip_head in Hk. cbn [lstrip]. by rewrite Hk.
Qed.

Lemma strip_idempotent s : strip (strip s) = strip s.
Proof. unfold strip. by rewrite lstrip_rstrip_lstrip, rstrip_idempotent. Qed.

Lemma strip_lstrip s : strip (lstrip s) = strip s.
Proof. unfold strip. by rewrite lstrip_idempotent. Qed.

Lemma within_refl s : within s s.
Proof. exists [], []. by rewrite app_nil_r. Qed.

Lemma within_trans a b c : within a b → within b c → within a c.
Proof.
  intros (p1 & q1 & ->) (p2 & q2 & ->). exists (p2 ++ p1), (q1 ++ q2).
  by rewrite <-!app_assoc.
Qed.

Lemma within_prefix s t : s `prefix_of` t → within s t.
Proof. intros [k ->]. by exists [], k. Qed.

Lemma within_suffix s t : s `suffix_of` t → within s t.
Proof. intros [k ->]. exists k, []. by rewrite app_nil_r. Qed.

Lemma within_strip s : within (strip s) s.
Proof.
  eapply within_trans; [apply within_prefix, rstrip_prefix|].
  apply within_suffix, lstrip_suffix.
Qed.

Lemma within_cons a s t : within s t → within s (a :: t).
Proof. intros (p & q & ->). by exists (a :: p), q. Qed.

Lemma has_fence_cons_r a s : has_fence s → has_fence (a :: s).
Proof. intros (p & q & ->). by exists (a :: p), q. Qed.

(** ** More on the fence pattern *)

Lemma re_group_close_within s g :
  re_group_close s = Some g → within g s ∧ has_fence s.
Proof.
  intros [[k ->] _]%re_group_close_spec. split.
  - exists [], (FENCE ++ k). by rewrite <-app_assoc.
  - exists g, k. by rewrite <-app_assoc.
Qed.

Lemma re_spaces_within s g : re_spaces s = Some g → within g s ∧ has_fence s.
Proof.
  revert g. induction s as [|c s IH]; intros g; cbn [re_spaces].
  - apply re_group_close_within.
  - destruct (isspace c); [|apply re_group_close_within].
    destruct (re_spaces s) as [g'|]; [|apply re_group_close_within].
    intros [= <-]. destruct (IH g' eq_refl). split.
    + by apply within_cons.
    + by apply has_fence_cons_r.
Qed.

Lemma re_json_opt_within s g : re_json_opt s = Some g → within g s ∧ has_fence s.
Proof.
  unfold re_json_opt.
  destruct s as [|j [|s0 [|o [|n rest]]]]; try apply re_spaces_within.
  destruct (ci_j j && ci_s s0 && ci_o o && ci_n n); [|apply re_spaces_within].
  destruct (re_spaces rest) as [g'|] eqn:Hr; [|apply re_spaces_within].
  intros [= <-]. apply re_spaces_within in Hr as [Hw Hf]. split.
  - by do 4 apply within_cons.
  - by do 4 apply has_fence_cons_r.
Qed.

Lemma re_match_here_within s g :
  re_match_here s = Some g → ∃ r, s = FENCE ++ r ∧ within g r ∧ has_fence r.
Proof.
  unfold re_match_here. destruct (startswith FENCE s) eqn:Hs; [|done].
  apply startswith_prefix in Hs as [r ->]. intros Hm. exists r.
  split; [done|]. by apply re_json_opt_within.
Qed.

Lemma re_search_fence_within text g :
  re_search_fence text = Some g →
  ∃ p r, text = p ++ FENCE ++ r ∧ within g r ∧ has_fence r.
Proof.
  induction text as [|c text IH]; cbn [re_search_fence].
  - destruct (re_match_here []) eqn:Hm; [|done]. intros [= <-].
    apply re_match_here_within in Hm as (r & ? & ? & ?). by exists [], r.
  - destruct (re_match_here (c :: text)) eqn:Hm.
    + intros [= <-]. apply re_match_here_within in Hm as (r & ? & ? & ?).
      by exists [], r.
    + intros (p & r & -> & ? & ?)%IH. by exists (c :: p), r.
Qed.

Lemma find_None_inv text sub :
  find text sub = None → ∀ pre post, text ≠ pre ++ sub ++ post.
Proof.
  induction text as [|a text IH]; cbn [find].
  - destruct (startswith sub []) eqn:Hs; [done|]. intros _ pre post H.
    destruct pre, sub; try done.
  - destruct (startswith sub (a :: text)) eqn:Hs; [done|].
    destruct (find text sub) eqn:Hf; [done|]. intros _ pre post H.
    destruct pre as [|b pre].
    + cbn in H. rewrite H, startswith_app in Hs. done.
    + injection H as _ H. by eapply IH.
Qed.

Lemma find_first text sub n :
  find text sub = Some n → ∀ pre post, text = pre ++ sub ++ post → (n ≤ length pre)%nat.
Proof.
  revert n. induction text as [|a text IH]; intros n; cbn [find].
  - destruct (startswith sub []); [|done]. intros [= <-] ???. lia.
  - destruct (startswith sub (a :: text)) eqn:Hs; [intros [= <-] ???; lia|].
    destruct (find text sub) as [m|] eqn:Hf; [|done]. intros [= <-] pre post H.
    destruct pre as [|b pre].
    + cbn in H. rewrite H, startswith_app in Hs. done.
    + injection H as _ H. cbn. specialize (IH m eq_refl pre post H). lia.
Qed.

(** ** The sanitizer *)

Lemma startswith_fence_cons a s : a ≠ BACKTICK → startswith FENCE (a :: s) = false.
Proof.
  intros Ha. unfold FENCE. cbn [startswith].
  apply andb_false_iff. left. apply N.eqb_neq. congruence.
Qed.

Lemma re_search_fence_skip pre x :
  BACKTICK ∉ pre → re_search_fence (pre ++ x) = re_search_fence x.
Proof.
  induction pre as [|a pre IH]; intros Hn; [done|].
  cbn [app re_search_fence]. unfold re_match_here.
  rewrite startswith_fence_cons by (intros ->; apply Hn; by left).
  apply IH. intros ?. apply Hn. by right.
Qed.

Lemma re_group_close_first b post :
  BACKTICK ∉ b → re_group_close (b ++ FENCE ++ post) = Some b.
Proof.
  induction b as [|a b IH]; intros Hn.
  - cbn [app]. destruct post; done.
  - cbn [app re_group_close].
    rewrite startswith_fence_cons by (intros ->; apply Hn; by left).
    rewrite IH; [done|]. intros ?. apply Hn. by right.
Qed.

Lemma re_spaces_first b post :
  BACKTICK ∉ b → re_spaces (b ++ FENCE ++ post) = Some (lstrip b).
Proof.
  induction b as [|a b IH]; intros Hn.
  - change ([] ++ FENCE ++ post) with (BACKTICK :: BACKTICK :: BACKTICK :: post).
    cbn [re_spaces]. change (isspace BACKTICK) with false. cbn iota.
    apply (re_group_close_first [] post). apply not_elem_of_nil.
  - cbn [app re_spaces lstrip]. destruct (isspace a).
    + rewrite IH; [done|]. intros ?. apply Hn. by right.
    + by apply (re_group_close_first (a :: b) post).
Qed.

Lemma re_json_opt_no_tag s :
  (∀ j s0 o n rest, s = j :: s0 :: o :: n :: rest →
     ci_j j && ci_s s0 && ci_o o && ci_n n = false) →
  re_json_opt s = re_spaces s.
Proof.
  intros H. unfold re_json_opt.
  destruct s as [|j [|s0 [|o [|n rest]]]]; try done.
  by rewrite (H j s0 o n rest eq_refl).
Qed.

Lemma re_json_opt_first inner post :
  BACKTICK ∉ inner →
  re_json_opt (inner ++ FENCE ++ post) = Some (lstrip (skip_json_tag inner)).
Proof.
  intros Hn.
  assert (ci_j BACKTICK = false ∧ ci_s BACKTICK = false ∧ ci_o BACKTICK = false)
    as (Hj & Hs & Ho) by done.
  destruct inner as [|j [|s0 [|o [|n rest]]]].
  - rewrite re_json_opt_no_tag; [by apply (re_spaces_first [] post)|].
    intros ????? [= <- <- <- _]. by rewrite Hj.
  - rewrite re_json_opt_no_tag; [by apply (re_spaces_first [j] post)|].
    intros ????? [= <- <- <- _]. by rewrite Hs, andb_false_r.
  - rewrite re_json_opt_no_tag; [by apply (re_spaces_first [j; s0] post)|].
    intros ????? [= <- <- <- _]. by rewrite Ho, andb_false_r.
  - rewrite re_json_opt_no_tag; [by apply (re_spaces_first [j; s0; o] post)|].
    intros ????? [= <- <- <- <- _]. unfold ci_n, BACKTICK. cbn.
    by rewrite andb_false_r.
  - unfold re_json_opt, skip_json_tag. cbn [app].
    destruct (ci_j j && ci_s s0 && ci_o o && ci_n n).
    + rewrite re_spaces_first; [done|].
      intros ?. apply Hn. by do 4 right.
    + by apply (re_spaces_first (j :: s0 :: o :: n :: rest) post).
Qed.

Lemma re_search_fence_here s g :
  re_match_here s = Some g → re_search_fence s = Some g.
Proof. intros H. destruct s; cbn [re_search_fence]; by rewrite H. Qed.

(** X1. The content of a fence: when the text before the first triple
    backtick and the text between it and the next one hold no backtick,
    [strip_code_fences] returns what is between the two, without the
    optional tag [json] (in any case) and trimmed. *)
Theorem strip_code_fences_fenced (pre inner post : str) :
  BACKTICK ∉ pre → BACKTICK ∉ inner →
  strip_code_fences (pre ++ FENCE ++ inner ++ FENCE ++ post)
  = strip (skip_json_tag inner).
Proof.
  intros Hpre Hinner. unfold strip_code_fences.
  rewrite re_search_fence_skip by done.
  assert (re_search_fence (FENCE ++ inner ++ FENCE ++ post)
          = Some (lstrip (skip_json_tag inner))) as ->.
  { apply re_search_fence_here. unfold re_match_here.
    rewrite (startswith_app FENCE (inner ++ FENCE ++ post)).
    change (drop 3 (FENCE ++ inner ++ FENCE ++ post)) with (inner ++ FENCE ++ post).
    by apply re_json_opt_first. }
  apply strip_lstrip.
Qed.

Lemma strip_code_fences_fenced_witness :
  strip_code_fences (lit "Here you go: " ++ FENCE ++ lit "JSON  [1, 2]  " ++ FENCE
                     ++ lit " bye")
  = strip (skip_json_tag (lit "JSON  [1, 2]  ")).
Proof.
  apply (strip_code_fences_fenced (lit "Here you go: ") (lit "JSON  [1, 2]  ")
           (lit " bye")); vm_compute; intros H;
    repeat (apply elem_of_cons in H as [H|H]; [discriminate H|]);
    by apply elem_of_nil in H.
Defined.

(** X2. Without a closing fence nothing is stripped: a text with no
    triple backtick, or with none after the first one, is returned as it
    is. *)
Theorem strip_code_fences_unclosed (text : str) :
  no_closing_fence text = true → strip_code_fences text = text.
Proof.
  unfold no_closing_fence, strip_code_fences. intros Hno.
  destruct (re_search_fence text) as [g|] eqn:Hs; [exfalso|done].
  apply re_search_fence_within in Hs as (p & r & Htext & _ & Hr).
  destruct (find text FENCE) as [n|] eqn:Hfind.
  - apply bool_decide_eq_true in Hno.
    pose proof (find_first _ _ _ Hfind p r Htext) as Hle.
    assert (has_fence (drop (n + 3) text)) as (a & b & Hab).
    { eapply has_fence_suffix; [|exact Hr].
      exists (drop (n + 3) (p ++ FENCE)). rewrite Htext.
      rewrite (app_assoc p FENCE r), drop_app_le; [done|].
      rewrite length_app. cbn. lia. }
    by eapply find_None_inv.
  - by eapply find_None_inv.
Qed.

Lemma strip_code_fences_unclosed_witness :
  strip_code_fences (lit "```json [{'title': 'cut") = lit "```json [{'title': 'cut".
Proof.
  apply (strip_code_fences_unclosed (lit "```json [{'title': 'cut")).
  vm_compute. reflexivity.
Defined.

Lemma strip_code_fences_part text : within (strip_code_fences text) text.
Proof.
  unfold strip_code_fences.
  destruct (re_search_fence text) as [g|] eqn:Hs; [|apply within_refl].
  apply re_search_fence_within in Hs as (p & r & -> & Hg & _).
  eapply within_trans; [apply within_strip|].
  eapply within_trans; [exact Hg|]. exists (p ++ FENCE), [].
  by rewrite app_nil_r, <-app_assoc.
Qed.

(** X3. The sanitizer only cuts: its result is a contiguous part of the
    text, and when it differs from the text it is trimmed and holds no
    triple backtick. *)
Theorem strip_code_fences_within (text : str) :
  within (strip_code_fences text) text
  ∧ (strip_code_fences text ≠ text →
       ¬ has_fence (strip_code_fences text)
       ∧ strip (strip_code_fences text) = strip_code_fences text).
Proof.
  split; [apply strip_code_fences_part|].
  unfold strip_code_fences.
  destruct (re_search_fence text) as [g|] eqn:Hs; [|done].
  intros _. split; [|apply strip_idempotent].
  intros H%has_fence_strip. by apply re_search_fence_no_fence in Hs.
Qed.

(** ** More on the extractor *)

Lemma find_single_None o text : o ∉ text → find text [o] = None.
Proof.
  induction text as [|a text IH]; intros Hn; cbn [find].
  - done.
  - destruct (startswith [o] (a :: text)) eqn:Hs.
    + apply startswith_single in Hs as [r [= -> _]]. destruct Hn. by left.
    + rewrite IH; [done|]. intros ?. apply Hn. by right.
Qed.

Lemma find_single_skip pre o text :
  o ∉ pre → find (pre ++ text) [o] = (λ n, length pre + n)%nat <$> find text [o].
Proof.
  induction pre as [|a pre IH]; intros Hn.
  - cbn. by destruct (find text [o]).
  - cbn [app find].
    destruct (startswith [o] (a :: pre ++ text)) eqn:Hs.
    + apply startswith_single in Hs as [r [= -> _]]. destruct Hn. by left.
    + rewrite IH by (intros ?; apply Hn; by right).
      by destruct (find text [o]).
Qed.

Lemma find_single_app o text post n :
  find text [o] = Some n → find (text ++ post) [o] = Some n.
Proof.
  revert n. induction text as [|a text IH]; intros n; cbn [find app].
  - by destruct (startswith [o] []) eqn:Hs.
  - destruct (startswith [o] (a :: text)) eqn:Hs.
    + intros [= <-]. apply startswith_single in Hs as [r [= -> _]].
      by rewrite (proj2 (startswith_single o (o :: text ++ post))) by eauto.
    + destruct (find text [o]) as [m|] eqn:Hm; [|done]. intros [= <-].
      assert (startswith [o] (a :: text ++ post) = false) as ->.
      { destruct (startswith [o] (a :: text ++ post)) eqn:Hs'; [|done].
        apply startswith_single in Hs' as [r [= -> _]].
        by rewrite (proj2 (startswith_single o (o :: text))) in Hs by eauto. }
      by rewrite (IH m).
Qed.

Lemma find_Some_lt text sub n : find text sub = Some n → (n ≤ length text)%nat.
Proof.
  intros (pre & post & -> & <-)%find_Some. rewrite length_app. lia.
Qed.

Section ScanMore.
Context (open_ch close_ch : str).

Local Abbreviation step := (scan_step open_ch close_ch).
Local Abbreviation loop := (scan_loop open_ch close_ch).

Lemma scan_step_index st i k ch :
  step st (k + i) ch
  = match step st i ch with
    | inl j => inl (k + j)%nat
    | inr st' => inr st'
    end.
Proof.
  unfold scan_step.
  repeat match goal with
         | |- context [if ?x then _ else _] => destruct x
         end; done.
Qed.

(** The index at which a scan starts only shifts the index it returns. *)
Lemma scan_loop_shift st i k rest :
  loop st (k + i) rest = (λ j, k + j)%nat <$> loop st i rest.
Proof.
  revert st i. induction rest as [|ch rest IH]; intros st i; [done|].
  cbn [scan_loop]. rewrite scan_step_index.
  destruct (step st i ch) as [j|st']; [done|].
  replace (S (k + i)) with (k + S i)%nat by lia. apply IH.
Qed.

(** A scan that returns does not look at what follows. *)
Lemma scan_loop_app st i rest post j :
  loop st i rest = Some j →
  loop st i (rest ++ post) = Some j ∧ (i ≤ j < i + length rest)%nat.
Proof.
  revert st i. induction rest as [|ch rest IH]; intros st i; [done|].
  cbn [scan_loop app]. destruct (step st i ch) as [k|st'] eqn:Hs.
  - intros [= <-]. apply scan_step_inl in Hs as [-> _]. split; [done|]. cbn. lia.
  - intros H. destruct (IH _ _ H) as [-> ?]. split; [done|]. cbn. lia.
Qed.

(** Inside a string literal whose quote does not come back, the scan
    runs off the end. *)
Lemma scan_loop_open_literal q rest : ∀ d e i,
  q ∉ rest → loop (ScanState d true e (Some q)) i rest = None.
Proof.
  induction rest as [|ch rest IH]; intros d e i Hn; [done|].
  assert (q ∉ rest) as Hn' by (intros ?; apply Hn; by right).
  assert (ch ≠ q) as Hch by (intros ->; apply Hn; by left).
  cbn [scan_loop]. unfold scan_step. cbn [in_str esc quote depth].
  destruct e; [by apply IH|].
  destruct (ch =? BACKSLASH); [by apply IH|].
  rewrite bool_decide_eq_false_2 by congruence. by apply IH.
Qed.
End ScanMore.

(** X4. No opening bracket, no block: on a text in which the character
    [o] does not occur, in particular on the empty text,
    [extract_balanced_block] returns [None] whatever the closing string. *)
Theorem extract_balanced_block_no_open (text : str) (o : char) (close_ch : str) :
  o ∉ text → extract_balanced_block text [o] close_ch = None.
Proof.
  intros Hn. unfold extract_balanced_block. by rewrite find_single_None.
Qed.

Lemma extract_balanced_block_no_open_witness :
  extract_balanced_block (lit "no brackets } here ]") [LBRACKET] [RBRACKET] = None.
Proof.
  apply (extract_balanced_block_no_open (lit "no brackets } here ]") LBRACKET).
  vm_compute. intros H.
  repeat (apply elem_of_cons in H as [H|H]; [discriminate H|]).
  by apply elem_of_nil in H.
Defined.

(** X5. What precedes the first opening bracket does not matter: text
    without the character [o] in front of a text leaves the result of
    [extract_balanced_block] as it is, quotes and closing brackets in
    that text included. *)
Theorem extract_balanced_block_skips_prefix (pre text : str) (o : char)
    (close_ch : str) :
  o ∉ pre →
  extract_balanced_block (pre ++ text) [o] close_ch
  = extract_balanced_block text [o] close_ch.
Proof.
  intros Hn. unfold extract_balanced_block. rewrite find_single_skip by done.
  destruct (find text [o]) as [n|] eqn:Hfind; [|done]. cbn [fmap option_fmap option_map].
  rewrite drop_app_add.
  rewrite <-(Nat.add_0_r (length pre + n)), <-Nat.add_assoc, scan_loop_shift.
  rewrite Nat.add_0_r.
  destruct (scan_loop [o] close_ch scan_init n (drop n text)) as [j|]; [|done].
  cbn [fmap option_fmap option_map]. f_equal. unfold slice.
  rewrite drop_app_add. f_equal. lia.
Qed.

Lemma extract_balanced_block_skips_prefix_witness :
  extract_balanced_block (lit "it's ] here: " ++ lit "[1] x") [LBRACKET] [RBRACKET]
  = extract_balanced_block (lit "[1] x") [LBRACKET] [RBRACKET].
Proof.
  apply (extract_balanced_block_skips_prefix (lit "it's ] here: ") (lit "[1] x")
           LBRACKET [RBRACKET]).
  vm_compute. intros H.
  repeat (apply elem_of_cons in H as [H|H]; [discriminate H|]).
  by apply elem_of_nil in H.
Defined.

(** X6. What follows a returned block does not matter: when
    [extract_balanced_block] returns a block on a text, it returns the
    same block on every extension of the text. *)
Theorem extract_balanced_block_ignores_suffix (text post open_ch close_ch s : str) :
  extract_balanced_block text open_ch close_ch = Some s →
  extract_balanced_block (text ++ post) open_ch close_ch = Some s.
Proof.
  intros He. pose proof He as (o & c & start & p & post' & -> & _ & -> & Hfind & _)
    %extract_balanced_block_Some.
  revert He. unfold extract_balanced_block.
  rewrite Hfind, (find_single_app _ _ post _ Hfind).
  pose proof (find_Some_lt _ _ _ Hfind) as Hstart.
  destruct (scan_loop [o] [c] scan_init start (drop start text)) as [j|] eqn:Hloop;
    [|done].
  intros [= <-]. rewrite drop_app_le by done.
  destruct (scan_loop_app _ _ _ _ _ post _ Hloop) as [-> Hj].
  f_equal. unfold slice. rewrite drop_app_le by done.
  apply take_app_le. lia.
Qed.

Lemma extract_balanced_block_ignores_suffix_witness :
  extract_balanced_block (lit "[1, 2]" ++ lit " and then ']' [") [LBRACKET] [RBRACKET]
  = Some (lit "[1, 2]").
Proof.
  apply (extract_balanced_block_ignores_suffix (lit "[1, 2]") (lit " and then ']' [")).
  vm_compute. reflexivity.
Defined.

(** X7. Balanced blocks of any bracket pair: for distinct characters [o]
    and [c] that are not quotes, a block from [o] to its matching [c],
    with nested blocks and with single- or double-quoted literals that
    may hold brackets and backslash-escaped quotes, is returned exactly
    when no [o] precedes it. *)
Theorem extract_balanced_block_returns_block (pre v post : str) (o c : char) :
  is_quote o = false → is_quote c = false → o ≠ c →
  o ∉ pre → block o c v →
  extract_balanced_block (pre ++ v ++ post) [o] [c] = Some v.
Proof. intros. by apply extract_block. Qed.

Lemma extract_balanced_block_returns_block_witness :
  extract_balanced_block (lit "f" ++ lit "(')', (x))" ++ lit ") + 1") [40] [41]
  = Some (lit "(')', (x))").
Proof.
  apply (extract_balanced_block_returns_block (lit "f") (lit "(')', (x))")
           (lit ") + 1") 40 41); try done.
  - vm_compute. intros H.
    repeat (apply elem_of_cons in H as [H|H]; [discriminate H|]).
    by apply elem_of_nil in H.
  - exists (lit "')', (x)"). split; [done|].
    change (balanced 40 41 (SQUOTE :: [41] ++ SQUOTE :: lit ", (x)")).
    apply balanced_quoted; [done | by repeat constructor |].
    change (balanced 40 41 (44 :: 32 :: 40 :: [120] ++ 41 :: [])).
    do 2 (apply balanced_plain; [done..|]).
    apply balanced_nested; [|constructor].
    apply balanced_plain; [done..|constructor].
Defined.

(** X8. An unclosed quote hides the rest: when, inside the first
    bracket, a quote character opens a literal and the same quote does
    not occur again, [extract_balanced_block] returns [None], however the
    brackets after the quote are placed.  An apostrophe in prose is such
    a quote. *)
Theorem extract_balanced_block_open_literal (pre b rest : str) (o c q : char) :
  bracket_pair o c →
  o ∉ pre → balanced o c b → is_quote q = true → q ∉ rest →
  extract_balanced_block (pre ++ o :: b ++ q :: rest) [o] [c] = None.
Proof.
  intros (Ho & Hc & Hoc)%bracket_pair_sane Hpre Hb Hq Hrest.
  unfold extract_balanced_block. rewrite find_single_first by done.
  rewrite drop_app_length. cbn [scan_loop]. unfold scan_step at 1.
  cbn [in_str scan_init]. fold (is_quote o).
  rewrite Ho, ch_eq_single, N.eqb_refl.
  change (depth scan_init + 1)%Z with 1%Z.
  change (esc scan_init) with false. change (quote scan_init) with (@None N).
  destruct (scan_balanced o c Ho Hc Hoc b Hb 1 None (S (length pre)) (q :: rest))
    as [q' ->]; [lia|].
  cbn [scan_loop]. unfold scan_step at 1. cbn [in_str esc quote depth].
  fold (is_quote q). rewrite Hq.
  by rewrite scan_loop_open_literal.
Qed.

Lemma extract_balanced_block_open_literal_witness :
  extract_balanced_block (lit "" ++ LBRACKET :: lit "1, 2, it" ++ SQUOTE :: lit "s] [3]")
    [LBRACKET] [RBRACKET] = None.
Proof.
  apply (extract_balanced_block_open_literal [] (lit "1, 2, it") (lit "s] [3]")
           LBRACKET RBRACKET SQUOTE).
  - by left.
  - apply not_elem_of_nil.
  - apply balanced_plain_all; [by left|]. by repeat constructor.
  - reflexivity.
  - vm_compute. intros H.
    repeat (apply elem_of_cons in H as [H|H]; [discriminate H|]).
    by apply elem_of_nil in H.
Defined.

(** ** More on extract_first_json *)

Lemma extract_balanced_block_part text open_ch close_ch s :
  extract_balanced_block text open_ch close_ch = Some s →
  within s text
  ∧ ∃ o c, open_ch = [o] ∧ close_ch = [c] ∧ head s = Some o ∧ last s = Some c
           ∧ bracket_depth open_ch close_ch s = 0%Z.
Proof.
  intros (o & c & start & p & post & -> & _ & -> & _ & Hdrop & Hs & H0 & _)
    %extract_balanced_block_Some.
  split.
  - exists (take start text), post. by rewrite <-Hdrop, take_drop.
  - exists o, c. split_and!; try done; rewrite Hs; [done|].
    change (o :: p ++ [c]) with ((o :: p) ++ [c]). apply last_snoc.
Qed.

(** The block [extract_first_json] returns is the result of one of its
    two attempts on the sanitized text. *)
Lemma extract_first_json_attempt text s :
  extract_first_json text = Some s →
  within (lstrip (strip_code_fences text)) text
  ∧ (extract_balanced_block (lstrip (strip_code_fences text)) [LBRACKET] [RBRACKET]
     = Some s
     ∨ extract_balanced_block (lstrip (strip_code_fences text)) [LBRACE] [RBRACE]
       = Some s).
Proof.
  unfold extract_first_json.
  set (cleaned := lstrip (strip_code_fences text)).
  split.
  { eapply within_trans; [apply within_suffix, lstrip_suffix|].
    apply strip_code_fences_part. }
  destruct (extract_balanced_block cleaned [LBRACKET] [RBRACKET]) as [[|a u]|] eqn:Ha.
  - by apply extract_balanced_block_part in Ha as (_ & ? & ? & _ & _ & ? & _).
  - cbn [py_or] in *. left. by simplify_eq.
  - cbn [py_or] in *. by right.
Qed.

(** X9. What [extract_first_json] returns: a contiguous part of the
    text that starts with an opening bracket and ends with the closing
    bracket of the same kind at bracket depth zero, or one that starts
    with an opening brace and ends with a closing brace at brace depth
    zero; never the empty string. *)
Theorem extract_first_json_shape (text s : str) :
  extract_first_json text = Some s →
  within s text
  ∧ ((head s = Some LBRACKET ∧ last s = Some RBRACKET
      ∧ bracket_depth [LBRACKET] [RBRACKET] s = 0%Z)
     ∨ (head s = Some LBRACE ∧ last s = Some RBRACE
        ∧ bracket_depth [LBRACE] [RBRACE] s = 0%Z)).
Proof.
  intros [Hclean [Ha|Hb]]%extract_first_json_attempt.
  - apply extract_balanced_block_part in Ha as (Hw & o & c & [= <-] & [= <-] & ? & ? & ?).
    split; [by eapply within_trans|]. by left.
  - apply extract_balanced_block_part in Hb as (Hw & o & c & [= <-] & [= <-] & ? & ? & ?).
    split; [by eapply within_trans|]. by right.
Qed.

Lemma extract_first_json_shape_witness :
  within (lit "[{'a': 1}]") (lit "Sure! [{'a': 1}] Anything else?")
  ∧ ((head (lit "[{'a': 1}]") = Some LBRACKET ∧ last (lit "[{'a': 1}]") = Some RBRACKET
      ∧ bracket_depth [LBRACKET] [RBRACKET] (lit "[{'a': 1}]") = 0%Z)
     ∨ (head (lit "[{'a': 1}]") = Some LBRACE ∧ last (lit "[{'a': 1}]") = Some RBRACE
        ∧ bracket_depth [LBRACE] [RBRACE] (lit "[{'a': 1}]") = 0%Z)).
Proof.
  apply (extract_first_json_shape (lit "Sure! [{'a': 1}] Anything else?")).
  vm_compute. reflexivity.
Defined.

(** X10. The candidate of the repair loop is cut out of the raw
    response: it is the block [extract_first_json] returns when it
    returns one and the trimmed response otherwise, in both cases a
    contiguous part of the response. *)
Theorem candidate_of_within (raw : str) :
  within (candidate_of raw) raw
  ∧ (∀ s, extract_first_json raw = Some s → candidate_of raw = s)
  ∧ (extract_first_json raw = None → candidate_of raw = strip raw).
Proof.
  unfold candidate_of.
  destruct (extract_first_json raw) as [s|] eqn:He.
  - assert (within s raw ∧ ∃ a u, s = a :: u) as [Hw (a & u & ->)].
    { apply extract_first_json_attempt in He as [Hclean [H|H]];
        apply extract_balanced_block_part in H as (Hw & o & c & _ & _ & Hh & _);
        (split; [by eapply within_trans|]); destruct s; by eauto. }
    cbn [py_or]. split_and!; [done|by intros ? [= <-]|done].
  - cbn [py_or]. split_and!; [apply within_strip|done..].
Qed.

(** ** More on process_text *)

Local Close Scope N_scope.

Section PipelineMore.
Context (E : collaborators).

(** The world before the sections are materialized: one generate-mode
    request and the fix-mode requests, no insert yet; [process_text]
    either raised there or goes on with lines 139-150. *)
Lemma process_text_run (text file : str) (n : Z) (w : world) :
  ∃ w2 fixes,
    requests w2 = requests w ++ (false, prompt_text text) :: fixes
    ∧ length fixes ≤ Z.to_nat n
    ∧ insert_calls w2 = insert_calls w
    ∧ collection w2 = collection w
    ∧ clock_reads w2 = clock_reads w
    ∧ ((∃ e, process_text E text file n w = (Raise e, w2))
       ∨ (∃ r, process_text E text file n w = after_loop E file r w2)).
Proof.
  unfold process_text.
  pose proof (call_model_run E (prompt_text text) false w) as Hcall. cbn zeta in Hcall.
  set (w1 := World (requests w ++ [(false, prompt_text text)]) (insert_calls w)
                   (collection w) (clock_reads w) (stdout w)) in *.
  destruct (backend E (length (requests w)) (prompt_text text)) as [|body].
  { rewrite (bind_Raise _ _ _ _ _ Hcall). exists w1, [].
    split_and!; try done; [cbn; lia|]. left. eauto. }
  destruct (response_text body) as [raw|e].
  2:{ rewrite (bind_Raise _ _ _ _ _ Hcall). exists w1, [].
      split_and!; try done; [cbn; lia|]. left. eauto. }
  rewrite (bind_Ok _ _ _ _ _ Hcall).
  destruct (repair_loop_run E file n (seqZ 0 (n + 1)) 0 raw w1)
    as (fixes & Hreq & _ & Hlen & Hins & Hcol & Hclock & _).
  { f_equal. lia. }
  cbn zeta in *. rewrite Z.sub_0_r in Hlen.
  unfold validate_and_store, mbind, M_bind.
  destruct (repair_loop E file n (seqZ 0 (n + 1)) raw w1) as [[r|e] w2];
    cbn in Hreq, Hins, Hcol, Hclock; exists w2, fixes;
    (split_and!; try done; [by rewrite Hreq, <-app_assoc|]).
  - right. by exists r.
  - left. eauto.
Qed.

Lemma docs_from_filename file k ds :
  Forall (λ doc, filename doc = file) (docs_from E file k ds).
Proof.
  revert k. induction ds as [|d ds IH]; intros k; [constructor|].
  rewrite docs_from_cons. by constructor.
Qed.

(** Lines 139-150 post no request, only append documents of this file to
    the collection, and call [insert_one] at most once more than they
    store. *)
Lemma after_loop_run (file : str) (r : loop_exit) (w : world) :
  requests (after_loop E file r w).2 = requests w
  ∧ (after_loop E file r w).1 ≠ Raise RequestError
  ∧ ((after_loop E file r w).1 = Raise UnboundLocalError
     ∨ (after_loop E file r w).1 = Ok Failed →
     insert_calls (after_loop E file r w).2 = insert_calls w
     ∧ collection (after_loop E file r w).2 = collection w)
  ∧ ∃ docs,
      collection (after_loop E file r w).2 = collection w ++ docs
      ∧ Forall (λ doc, filename doc = file) docs
      ∧ length (insert_calls (after_loop E file r w).2)
        ≤ length (insert_calls w) + length docs + 1.
Proof.
  destruct r as [sections| |].
  - rewrite after_loop_break.
    pose proof (insert_sections_requests E file sections w) as Hreq.
    destruct (insert_sections_run E file sections w)
      as (ds & rest & _ & [[_ Hr]|[(x & post & _ & _ & Hr)|(d & post & _ & Hr & Hcol & Hlen)]]).
    + rewrite Hr in *. cbn in *. split_and!; try done; [by intros [?|?]|].
      exists (docs_from E file (clock_reads w) ds).
      split_and!; [done|apply docs_from_filename|]. rewrite length_app. lia.
    + rewrite Hr in *. cbn in *. split_and!; try done; [by intros [?|?]|].
      exists (docs_from E file (clock_reads w) ds).
      split_and!; [done|apply docs_from_filename|]. rewrite length_app. lia.
    + destruct (insert_sections E file sections w) as [[[]|e] w'] eqn:Hrun;
        cbn in Hr, Hcol, Hlen, Hreq; simplify_eq. cbn.
      split_and!; try done; [by intros [?|?]|].
      exists (docs_from E file (clock_reads w) ds).
      split_and!; [done|apply docs_from_filename|].
      rewrite Hlen, length_docs_from. lia.
  - cbn. split_and!; try done. exists []. rewrite app_nil_r. split_and!; try done. lia.
  - cbn. split_and!; try done. exists []. rewrite app_nil_r. split_and!; try done. lia.
Qed.

(** X11. A negative [max_retries] loses the answer: whatever the backend
    answers to the generate-mode request, and even when it is valid
    JSON, [process_text] raises [UnboundLocalError] after that one
    request, and nothing is inserted. *)
Theorem negative_max_retries (text file : str) (n : Z) (w : world)
    (body : pyval) (raw : str) :
  (n < 0)%Z →
  backend E (length (requests w)) (prompt_text text) = HttpBody body →
  response_text body = Ok raw →
  process_text E text file n w
  = (Raise UnboundLocalError,
     World (requests w ++ [(false, prompt_text text)]) (insert_calls w)
           (collection w) (clock_reads w) (stdout w)).
Proof.
  intros Hn Hback Hresp. unfold process_text.
  pose proof (call_model_run E (prompt_text text) false w) as Hcall.
  cbv zeta iota in Hcall. rewrite Hback, Hresp in Hcall.
  rewrite (bind_Ok _ _ _ _ _ Hcall). by rewrite seqZ_nil by lia.
Qed.

(** X12. [process_text] only appends: after every run the collection is
    the old collection followed by new documents, each carrying the file
    name given; [insert_one] was called at most once more than it
    stored. *)
Theorem process_text_appends (text file : str) (n : Z) (w : world) :
  ∃ docs,
    collection (process_text E text file n w).2 = collection w ++ docs
    ∧ Forall (λ doc, filename doc = file) docs
    ∧ length (insert_calls (process_text E text file n w).2)
      ≤ length (insert_calls w) + length docs + 1.
Proof.
  destruct (process_text_run text file n w)
    as (w2 & fixes & _ & _ & Hins & Hcol & _ & [[e ->]|[r ->]]).
  - exists []. cbn. rewrite app_nil_r, Hins. split_and!; try done. lia.
  - destruct (after_loop_run file r w2) as (_ & _ & _ & docs & ? & ? & ?).
    exists docs. by rewrite <-Hins, <-Hcol.
Qed.

(** X13. A run that ends on a request error (the backend failed in
    generate or fix mode) or on the unbound [sections] has inserted
    nothing and has not called [insert_one]. *)
Theorem request_error_inserts_nothing (text file : str) (n : Z) (w : world) :
  (process_text E text file n w).1 = Raise RequestError
  ∨ (process_text E text file n w).1 = Raise UnboundLocalError →
  insert_calls (process_text E text file n w).2 = insert_calls w
  ∧ collection (process_text E text file n w).2 = collection w.
Proof.
  destruct (process_text_run text file n w)
    as (w2 & fixes & _ & _ & Hins & Hcol & _ & [[e ->]|[r ->]]); [done|].
  destruct (after_loop_run file r w2) as (_ & Hne & Hsame & _).
  intros [H|H]; [done|]. rewrite <-Hins, <-Hcol. apply Hsame. by left.
Qed.
End PipelineMore.

Lemma negative_max_retries_witness :
  process_text (E_two_sections (λ _ _, true)) (lit "x") (lit "note.txt") (-1) world0
  = (Raise UnboundLocalError,
     World ([] ++ [(false, prompt_text (lit "x"))]) [] [] 0 []).
Proof.
  apply (negative_max_retries (E_two_sections (λ _ _, true)) (lit "x") (lit "note.txt")
           (-1) world0 (PDict {[ lit "response" := PStr two_sections_json ]})
           two_sections_json).
  - lia.
  - reflexivity.
  - vm_compute. reflexivity.
Defined.

Lemma request_error_inserts_nothing_witness :
  insert_calls (process_text E_down (lit "x") (lit "note.txt") 1 world0).2 = []
  ∧ collection (process_text E_down (lit "x") (lit "note.txt") 1 world0).2 = [].
Proof.
  apply (request_error_inserts_nothing E_down (lit "x") (lit "note.txt") 1 world0).
  left. vm_compute. reflexivity.
Defined.

Section RepairMore.
Context (E : collaborators).

(** X14. The success path: when the candidate parses and its sections
    are objects whose documents the collection accepts, every section is
    inserted, in the order of the sections and each with its own clock
    reading, and the run reports their number; an empty array gives the
    success exit with no insert and the count zero. *)
Theorem materialize_all (file : str) (n attempt : Z) (more : list Z) (raw : str)
    (v : pyval) (ds : list (gmap str pyval)) (w : world) :
  json_loads E (candidate_of raw) = Some v →
  as_sections v = PDict <$> ds →
  accepts_all E file w ds →
  validate_and_store E file n (attempt :: more) raw w
  = (Ok Done,
     World (requests w)
           (insert_calls w ++ docs_from E file (clock_reads w) ds)
           (collection w ++ docs_from E file (clock_reads w) ds)
           (clock_reads w + length ds)
           (stdout w ++ [InfoProcessed file (length ds)])).
Proof.
  intros Hparse Hsec Hacc.
  rewrite (validate_and_store_parsed _ _ _ _ _ _ _ _ Hparse), after_loop_break, Hsec.
  rewrite <-(app_nil_r (PDict <$> ds)) at 1.
  rewrite insert_sections_prefix by done. cbn [insert_sections].
  unfold mret, M_ret, stored. cbn. by rewrite length_docs_from, length_fmap.
Qed.

(** X15. No repair when the first answer parses: for [max_retries >= 0],
    when the candidate of the generate-mode answer parses, the run posts
    that one request only and goes on to materialize its sections. *)
Theorem first_parse_one_request (text file : str) (n : Z) (w : world)
    (body : pyval) (raw : str) (v : pyval) :
  (0 ≤ n)%Z →
  backend E (length (requests w)) (prompt_text text) = HttpBody body →
  response_text body = Ok raw →
  json_loads E (candidate_of raw) = Some v →
  process_text E text file n w
  = after_loop E file (LoopBreak (as_sections v))
      (World (requests w ++ [(false, prompt_text text)]) (insert_calls w)
             (collection w) (clock_reads w) (stdout w))
  ∧ requests (process_text E text file n w).2
    = requests w ++ [(false, prompt_text text)].
Proof.
  intros Hn Hback Hresp Hparse.
  assert (process_text E text file n w
          = after_loop E file (LoopBreak (as_sections v))
              (World (requests w ++ [(false, prompt_text text)]) (insert_calls w)
                     (collection w) (clock_reads w) (stdout w))) as ->.
  { unfold process_text.
    pose proof (call_model_run E (prompt_text text) false w) as Hcall.
    cbv zeta iota in Hcall. rewrite Hback, Hresp in Hcall.
    rewrite (bind_Ok _ _ _ _ _ Hcall), seqZ_cons by lia.
    by apply validate_and_store_parsed. }
  split; [done|]. by destruct (after_loop_run E file (LoopBreak (as_sections v))
    (World (requests w ++ [(false, prompt_text text)]) (insert_calls w)
           (collection w) (clock_reads w) (stdout w))) as [-> _].
Qed.

(** X16. One repair: for [max_retries >= 1], when the candidate of the
    first answer does not parse, the second request is the fix prompt
    built from that candidate (not from the raw answer); when the
    candidate of its answer parses, the run goes on to materialize those
    sections, after exactly two requests and one warning. *)
Theorem repaired_on_second_attempt (text file : str) (n : Z) (w : world)
    (body0 body1 : pyval) (raw0 raw1 : str) (v : pyval) :
  (1 ≤ n)%Z →
  backend E (length (requests w)) (prompt_text text) = HttpBody body0 →
  response_text body0 = Ok raw0 →
  json_loads E (candidate_of raw0) = None →
  backend E (length (requests w) + 1) (fix_prompt (candidate_of raw0)) = HttpBody body1 →
  response_text body1 = Ok raw1 →
  json_loads E (candidate_of raw1) = Some v →
  process_text E text file n w
  = after_loop E file (LoopBreak (as_sections v))
      (World (requests w ++ [(false, prompt_text text);
                             (true, fix_prompt (candidate_of raw0))])
             (insert_calls w) (collection w) (clock_reads w)
             (stdout w ++ [WarnRetry file 1 n])).
Proof.
  intros Hn Hback0 Hresp0 Hparse0 Hback1 Hresp1 Hparse1.
  unfold process_text.
  pose proof (call_model_run E (prompt_text text) false w) as Hcall.
  cbv zeta iota in Hcall. rewrite Hback0, Hresp0 in Hcall.
  rewrite (bind_Ok _ _ _ _ _ Hcall).
  rewrite seqZ_cons by lia. rewrite (seqZ_cons (Z.succ 0)) by lia.
  unfold validate_and_store.
  set (w1 := World (requests w ++ [(false, prompt_text text)]) (insert_calls w)
                   (collection w) (clock_reads w) (stdout w)).
  set (w2 := World (requests w1) (insert_calls w1) (collection w1) (clock_reads w1)
                   (stdout w1 ++ [WarnRetry file (0 + 1) n])).
  pose proof (call_model_run E (candidate_of raw0) true w2) as Hcall2.
  cbv zeta iota in Hcall2.
  assert (length (requests w2) = length (requests w) + 1) as Hlen.
  { unfold w2, w1. cbn. rewrite length_app. cbn. lia. }
  rewrite Hlen, Hback1, Hresp1 in Hcall2.
  rewrite (bind_Ok (repair_loop E file n _ raw0) _ w1 (LoopBreak (as_sections v))
    (World (requests w2 ++ [(true, fix_prompt (candidate_of raw0))]) (insert_calls w2)
           (collection w2) (clock_reads w2) (stdout w2))).
  - unfold w2, w1. cbn. by rewrite <-app_assoc.
  - cbn [repair_loop]. rewrite Hparse0.
    replace (0 <? n)%Z with true by (symmetry; apply Z.ltb_lt; lia).
    rewrite (bind_Ok _ _ w1 () w2) by done.
    rewrite (bind_Ok _ _ _ _ _ Hcall2).
    cbn [repair_loop]. by rewrite Hparse1.
Qed.

(** X18. The model client returns trimmed text and posts exactly one
    request: a response that [call_model] returns has no white space at
    either end, so trimming it again changes nothing. *)
Theorem call_model_trimmed (prompt : str) (fix_mode : bool) (w w' : world) (raw : str) :
  call_model E prompt fix_mode w = (Ok raw, w') →
  strip raw = raw
  ∧ requests w'
    = requests w ++ [(fix_mode, if fix_mode then fix_prompt prompt else prompt)].
Proof.
  rewrite call_model_run. cbn zeta.
  destruct (backend E _ _) as [|body]; [done|].
  intros [= Hresp <-]. split; [|done].
  unfold response_text in Hresp.
  destruct body as [| | | | | |d]; try done.
  destruct (if py_truth (default PNone (d !! lit "response"))
            then default PNone (d !! lit "response") else PStr []); try done.
  injection Hresp as <-. apply strip_idempotent.
Qed.

(** The loop is left through the [return] of line 137 only at the last
    attempt, after one warning and one fix-mode request for every
    attempt before it. *)
Lemma repair_loop_returns file n attempts : ∀ a raw (w w' : world),
  attempts = seqZ a (n + 1 - a) →
  repair_loop E file n attempts raw w = (Ok LoopReturn, w') →
  (a ≤ n)%Z
  ∧ ∃ fixes warns last,
      requests w' = requests w ++ fixes
      ∧ length fixes = Z.to_nat (n - a)
      ∧ stdout w' = stdout w ++ warns ++ [ErrorParse file; RawOutput (preview last)]
      ∧ length warns = Z.to_nat (n - a)
      ∧ json_loads E (candidate_of last) = None.
Proof.
  induction attempts as [|attempt more IH]; intros a raw w w' Hseq; [done|].
  apply seqZ_cons_inv in Hseq as (Hlen & -> & Hmore).
  cbn [repair_loop].
  destruct (json_loads E (candidate_of raw)) as [v|] eqn:Hparse; [done|].
  destruct (a <? n)%Z eqn:Hlt.
  - apply Z.ltb_lt in Hlt.
    set (w1 := World (requests w) (insert_calls w) (collection w) (clock_reads w)
                     (stdout w ++ [WarnRetry file (a + 1) n])).
    rewrite (bind_Ok _ _ w () w1) by done.
    pose proof (call_model_run E (candidate_of raw) true w1) as Hcall.
    cbv zeta iota in Hcall.
    destruct (backend E (length (requests w1)) (fix_prompt (candidate_of raw)))
      as [|body]; [by rewrite (bind_Raise _ _ _ _ _ Hcall)|].
    destruct (response_text body) as [raw'|e];
      [|by rewrite (bind_Raise _ _ _ _ _ Hcall)].
    rewrite (bind_Ok _ _ _ _ _ Hcall). intros Hrun.
    apply IH with (a := (a + 1)%Z) in Hrun
      as (_ & fixes & warns & last & Hreq & Hfix & Hout & Hwarn & Hlast);
      [|rewrite Hmore; f_equal; lia].
    split; [lia|].
    exists ((true, fix_prompt (candidate_of raw)) :: fixes),
           (WarnRetry file (a + 1) n :: warns), last.
    cbn in Hreq, Hout. split_and!; try done.
    + by rewrite Hreq, <-app_assoc.
    + cbn. lia.
    + by rewrite Hout, <-app_assoc.
    + cbn. lia.
  - apply Z.ltb_ge in Hlt. intros [= <-]. split; [lia|].
    exists [], [], raw. cbn. rewrite app_nil_r, <-app_assoc.
    split_and!; try done; lia.
Qed.

(** X19. The failure exit tells how it was reached: when [process_text]
    returns through the failure exit, [max_retries] is not negative, the
    run posted exactly [max_retries + 1] requests and printed one warning
    per repair, and its last two lines are the error line and the
    preview, at most 2003 characters long, of a response whose candidate
    does not parse. *)
Theorem failed_exit_report (text file : str) (n : Z) (w w' : world) :
  process_text E text file n w = (Ok Failed, w') →
  (0 ≤ n)%Z
  ∧ length (requests w') = length (requests w) + Z.to_nat n + 1
  ∧ ∃ warns last,
      stdout w' = stdout w ++ warns ++ [ErrorParse file; RawOutput (preview last)]
      ∧ length warns = Z.to_nat n
      ∧ json_loads E (candidate_of last) = None
      ∧ length (preview last) ≤ 2003.
Proof.
  unfold process_text.
  pose proof (call_model_run E (prompt_text text) false w) as Hcall.
  cbv zeta iota in Hcall.
  destruct (backend E (length (requests w)) (prompt_text text)) as [|body];
    [by rewrite (bind_Raise _ _ _ _ _ Hcall)|].
  destruct (response_text body) as [raw|e];
    [|by rewrite (bind_Raise _ _ _ _ _ Hcall)].
  rewrite (bind_Ok _ _ _ _ _ Hcall).
  unfold validate_and_store at 1.
  set (w1 := World (requests w ++ [(false, prompt_text text)]) (insert_calls w)
                   (collection w) (clock_reads w) (stdout w)).
  destruct (repair_loop E file n (seqZ 0 (n + 1)) raw w1) as [[r|e] w2] eqn:Hloop.
  2:{ by rewrite (bind_Raise _ _ _ _ _ Hloop). }
  rewrite (bind_Ok _ _ _ _ _ Hloop).
  destruct r as [sections| |]; [|intros [= <-]|done].
  { rewrite after_loop_break.
    by destruct (insert_sections E file sections w2) as [[[]|?] ?]. }
  apply repair_loop_returns with (a := 0%Z) in Hloop
    as (Hn & fixes & warns & last & Hreq & Hfix & Hout & Hwarn & Hlast);
    [|f_equal; lia].
  rewrite Z.sub_0_r in *. split; [done|]. split.
  - rewrite Hreq. unfold w1. cbn [requests]. rewrite !length_app. cbn [length]. lia.
  - exists warns, last. split_and!; try done.
    unfold preview. destruct (2000 <? length last) eqn:Hl.
    + rewrite length_app, length_take. change (length (lit "...")) with 3. lia.
    + apply Nat.ltb_ge in Hl. lia.
Qed.
End RepairMore.

(** X17. The preview is bounded: [preview] keeps a response of at most
    2000 characters as it is and cuts a longer one to its first 2000
    characters followed by three dots. *)
Theorem preview_bound (raw : str) :
  length (preview raw) ≤ 2003
  ∧ (length raw ≤ 2000 → preview raw = raw)
  ∧ (2000 < length raw →
       take 2000 (preview raw) = take 2000 raw ∧ length (preview raw) = 2003).
Proof.
  unfold preview. destruct (2000 <? length raw) eqn:Hl.
  - apply Nat.ltb_lt in Hl. rewrite length_app, length_take.
    change (length (lit "...")) with 3.
    split_and!; try lia. intros _. split; [|lia].
    rewrite take_app_le by (rewrite length_take; lia).
    rewrite take_take. f_equal.
  - apply Nat.ltb_ge in Hl. split_and!; [lia|done|lia].
Qed.

Lemma materialize_all_witness :
  validate_and_store (E_two_sections (λ _ _, true)) (lit "note.txt") 1 [0; 1]%Z
    two_sections_json world0
  = (Ok Done,
     World []
       ([] ++ docs_from (E_two_sections (λ _ _, true)) (lit "note.txt") 0
                [section_titled "A"; section_titled "B"])
       ([] ++ docs_from (E_two_sections (λ _ _, true)) (lit "note.txt") 0
                [section_titled "A"; section_titled "B"])
       (0 + 2)
       ([] ++ [InfoProcessed (lit "note.txt") 2])).
Proof.
  apply (materialize_all (E_two_sections (λ _ _, true)) (lit "note.txt") 1 0 [1%Z]
           two_sections_json
           (PList [PDict (section_titled "A"); PDict (section_titled "B")])
           [section_titled "A"; section_titled "B"] world0).
  - vm_compute. reflexivity.
  - reflexivity.
  - intros i d _. reflexivity.
Defined.

Lemma first_parse_one_request_witness :
  process_text (E_two_sections (λ _ _, true)) (lit "x") (lit "note.txt") 3 world0
  = after_loop (E_two_sections (λ _ _, true)) (lit "note.txt")
      (LoopBreak (as_sections
         (PList [PDict (section_titled "A"); PDict (section_titled "B")])))
      (World ([] ++ [(false, prompt_text (lit "x"))]) [] [] 0 [])
  ∧ requests (process_text (E_two_sections (λ _ _, true)) (lit "x") (lit "note.txt") 3
                world0).2
    = [] ++ [(false, prompt_text (lit "x"))].
Proof.
  apply (first_parse_one_request (E_two_sections (λ _ _, true)) (lit "x")
           (lit "note.txt") 3 world0
           (PDict {[ lit "response" := PStr two_sections_json ]}) two_sections_json).
  - lia.
  - reflexivity.
  - vm_compute. reflexivity.
  - vm_compute. reflexivity.
Defined.

(** The cut answer of scenario 2 has no balanced block, so its candidate
    is the whole trimmed answer, prose included. *)
Example cut_json_candidate : candidate_of cut_json = cut_json.
Proof. vm_compute. reflexivity. Qed.

Lemma repaired_on_second_attempt_witness :
  process_text E_repaired (lit "x") (lit "note.txt") 1 world0
  = after_loop E_repaired (lit "note.txt")
      (LoopBreak (as_sections
         (PList [PDict (section_titled "A"); PDict (section_titled "B")])))
      (World ([] ++ [(false, prompt_text (lit "x"));
                     (true, fix_prompt (candidate_of cut_json))])
             [] [] 0 ([] ++ [WarnRetry (lit "note.txt") 1 1])).
Proof.
  apply (repaired_on_second_attempt E_repaired (lit "x") (lit "note.txt") 1 world0
           (PDict {[ lit "response" := PStr cut_json ]})
           (PDict {[ lit "response" := PStr two_sections_json ]})
           cut_json two_sections_json).
  - lia.
  - reflexivity.
  - vm_compute. reflexivity.
  - vm_compute. reflexivity.
  - reflexivity.
  - vm_compute. reflexivity.
  - vm_compute. reflexivity.
Defined.

Lemma call_model_trimmed_witness :
  strip (lit "[1]") = lit "[1]"
  ∧ requests (call_model (Collaborators (constant_backend (lit "  [1] ")) (λ _, None)
                            (λ _ _, true) (λ k, Z.of_nat k))
                (lit "p") false world0).2
    = [] ++ [(false, lit "p")].
Proof.
  apply (call_model_trimmed
           (Collaborators (constant_backend (lit "  [1] ")) (λ _, None)
              (λ _ _, true) (λ k, Z.of_nat k))
           (lit "p") false world0).
  vm_compute. reflexivity.
Defined.

Lemma failed_exit_report_witness :
  (0 ≤ 1)%Z
  ∧ length (requests (process_text E_never (lit "x") (lit "note.txt") 1 world0).2)
    = length (requests world0) + Z.to_nat 1 + 1
  ∧ ∃ warns last,
      stdout (process_text E_never (lit "x") (lit "note.txt") 1 world0).2
      = stdout world0 ++ warns ++ [ErrorParse (lit "note.txt"); RawOutput (preview last)]
      ∧ length warns = Z.to_nat 1
      ∧ json_loads E_never (candidate_of last) = None
      ∧ length (preview last) ≤ 2003.
Proof.
  apply (failed_exit_report E_never (lit "x") (lit "note.txt") 1 world0).
  vm_compute. reflexivity.
Defined.

(** ** The event handler *)

Section Handler.
Context (E : collaborators) (H : host).

(** X20. Which events reach the backend: [on_created] posts requests
    exactly for the events that are not directories, whose lower-cased
    path ends in [.txt] and whose file can be read; for those it posts
    one or two requests (one generate-mode request and at most one
    repair, since [max_retries] is left at 1), for every other event
    none. *)
Theorem on_created_requests (ev : event) (w : world) :
  ∃ new,
    requests (on_created E H ev w).2 = requests w ++ new
    ∧ length new ≤ 2
    ∧ (new ≠ [] ↔
         is_directory ev = false
         ∧ endswith (lit ".txt") (str_lower H (src_path ev)) = true
         ∧ is_Some (read_text H (src_path ev))).
Proof.
  unfold on_created.
  destruct (is_directory ev);
    [exists []; rewrite app_nil_r; split_and!; [done|cbn; lia|by split; [|intros (? & _)]]|].
  destruct (endswith _ _);
    [|exists []; rewrite app_nil_r; split_and!; [done|cbn; lia|by split; [|intros (_ & ? & _)]]].
  destruct (read_text H (src_path ev)) as [text|];
    [|exists []; rewrite app_nil_r; split_and!; [done|cbn; lia|]].
  2:{ split; [done|]. intros (_ & _ & [? ?]). done. }
  destruct (process_text_run E text (path_basename H (src_path ev))
              DEFAULT_MAX_RETRIES w)
    as (w2 & fixes & Hreq & Hlen & _ & _ & _ & [[e Hrun]|[r Hrun]]);
    change (Z.to_nat DEFAULT_MAX_RETRIES) with 1 in Hlen.
  - exists ((false, prompt_text text) :: fixes). rewrite Hrun.
    split_and!; [done | cbn [length]; lia |]. split; [eauto|done].
  - exists ((false, prompt_text text) :: fixes).
    assert (requests (process_text E text (path_basename H (src_path ev))
                        DEFAULT_MAX_RETRIES w).2 = requests w2) as Hsame.
    { rewrite Hrun. apply after_loop_run. }
    destruct (process_text E text _ DEFAULT_MAX_RETRIES w) as [[x|x] w3];
      cbn in Hsame |- *; rewrite Hsame;
      (split_and!; [done | cbn [length]; lia |]); (split; [eauto|done]).
Qed.

(** X21. What an event can store: after [on_created] the collection is
    the old collection followed by new documents (none for an ignored
    event or an unreadable file), each named by the base name of the
    path of the event, also when [process_text] raised and the handler
    reported the exception. *)
Theorem on_created_appends (ev : event) (w : world) :
  ∃ docs,
    collection (on_created E H ev w).2 = collection w ++ docs
    ∧ Forall (λ doc, filename doc = path_basename H (src_path ev)) docs
    ∧ (docs ≠ [] → ∃ text, read_text H (src_path ev) = Some text
                           ∧ is_directory ev = false).
Proof.
  unfold on_created.
  destruct (is_directory ev); [exists []; by rewrite app_nil_r|].
  destruct (endswith _ _); [|exists []; by rewrite app_nil_r].
  destruct (read_text H (src_path ev)) as [text|]; [|exists []; by rewrite app_nil_r].
  destruct (process_text_run E text (path_basename H (src_path ev))
              DEFAULT_MAX_RETRIES w)
    as (w2 & fixes & _ & _ & _ & Hcol & _ & [[e Hrun]|[r Hrun]]).
  - exists []. rewrite Hrun, app_nil_r. split_and!; [done|constructor|done].
  - destruct (after_loop_run E (path_basename H (src_path ev)) r w2)
      as (_ & _ & _ & docs & Hdocs & Hname & _).
    exists docs. rewrite <-Hrun in Hdocs.
    destruct (process_text E text _ DEFAULT_MAX_RETRIES w) as [[x|x] w3];
      cbn in Hdocs |- *; rewrite Hdocs, Hcol; split_and!; eauto.
Qed.
End Handler.

(** The handler on a file event of the example host: the path is
    lower-cased for the suffix test only, the documents carry the base
    name as it is spelt. *)
Example on_created_example :
  let res := on_created (E_two_sections (λ _ _, true)) example_host
               (Event false (lit "/mnt/storage/Note.TXT")) world0 in
  res.1 = Processed Done
  ∧ filename <$> collection res.2 = [lit "Note.TXT"; lit "Note.TXT"]
  ∧ requests res.2 = [(false, prompt_text (lit "Intro. Body."))].
Proof. vm_compute. done. Qed.

(** ** The extraction pipeline on a whole text *)

Local Open Scope N_scope.








Lemma not_elem_of_prefix (x : char) (s t : str) : s `prefix_of` t → x ∉ t → x ∉ s.
Proof. intros [k ->] Hn Hin. apply Hn, elem_of_app. by left. Qed.






